(** * The registry catalog index: a shallow embedding and its properties

    The development follows [registry/index/index.go] (the catalog store, the
    event sink and the paginated listing) and the two HTTP handlers that adapt
    requests to it.  The SQL statements the Go code sends to the storage engine
    are embedded as functions over an explicit pair of tables; the Go methods
    are written in a small state monad over a [World] that carries the tables,
    the wall clock read by [time.Now] and the outcomes the storage engine
    gives to the successive database calls. *)

From Stdlib Require Import String Ascii ZArith List Bool Lia Permutation.
Import ListNotations.

Local Open Scope string_scope.
Local Open Scope Z_scope.
Local Open Scope list_scope.

(** ** Byte strings

    Go strings are byte sequences; so are Rocq's [string]s. *)

(** [strings.Split(s, sep)] for a one-byte separator, the only way the index
    calls it ([strings.Split(url, "/")]): the pieces between the occurrences
    of [sep]; always at least one piece. *)
Fixpoint Split (s : string) (sep : ascii) : list string :=
  match s with
  | EmptyString => [EmptyString]
  | String c s' =>
      if Ascii.eqb c sep then EmptyString :: Split s' sep
      else match Split s' sep with
           | [] => [String c EmptyString]
           | p :: ps => String c p :: ps
           end
  end.

(** Whether the byte [c] occurs in [s]. *)
Fixpoint has_byte (c : ascii) (s : string) : bool :=
  match s with
  | EmptyString => false
  | String d s' => Ascii.eqb d c || has_byte c s'
  end.

(** [strings.HasPrefix(s, prefix)] *)
Fixpoint HasPrefix (s prefix : string) : bool :=
  match prefix with
  | EmptyString => true
  | String a prefix' =>
      match s with
      | EmptyString => false
      | String b s' => Ascii.eqb a b && HasPrefix s' prefix'
      end
  end.

(** [strings.Contains(s, substr)]: byte-exact (case-sensitive) containment. *)
Fixpoint Contains (s substr : string) : bool :=
  HasPrefix s substr
  || match s with
     | EmptyString => false
     | String _ s' => Contains s' substr
     end.

(** *** The LIKE operator of the storage engine

    SQLite's default LIKE ([likeFunc] and [patternCompare] of its
    [func.c]).  Pattern and value are handed over as C strings, so each ends
    at its first NUL byte, and both are read one UTF-8 character at a time
    with [sqlite3Utf8Read].  [%] matches any run of characters, [_] matches
    one, every other character matches itself, upper and lower case ASCII
    letters being equal.  No ESCAPE clause is given by the index, so there is
    no way to quote a wildcard. *)

Definition is_upper (c : ascii) : bool :=
  (65 <=? nat_of_ascii c)%nat && (nat_of_ascii c <=? 90)%nat.

Definition to_lower (c : ascii) : ascii :=
  if is_upper c then ascii_of_nat (nat_of_ascii c + 32) else c.

Fixpoint fold_case (s : string) : string :=
  match s with
  | EmptyString => EmptyString
  | String c s' => String (to_lower c) (fold_case s')
  end.

Definition percent : ascii := "%"%char.
Definition underscore : ascii := "_"%char.

(** The C string a byte string is read as: its bytes before the first
    NUL. *)
Fixpoint c_string (s : string) : string :=
  match s with
  | EmptyString => EmptyString
  | String c s' =>
      if Ascii.eqb c zero then EmptyString else String c (c_string s')
  end.

Definition byte_of (c : ascii) : Z := Z.of_nat (nat_of_ascii c).

(** [sqlite3Utf8Trans1[b - 0xc0]]: the payload bits of a lead byte. *)
Definition utf8_lead (b : Z) : Z :=
  if b <? 224 then b - 192
  else if b <? 240 then b - 224
  else if b <? 248 then b - 240
  else if b <? 252 then b - 248
  else if b <? 254 then b - 252
  else 0.

Definition is_continuation (b : Z) : bool := (128 <=? b) && (b <? 192).

(** The end of a multi-byte character in [sqlite3Utf8Read]: overlong
    forms, surrogates and 0xFFFE, 0xFFFF become U+FFFD. *)
Definition utf8_fix (c : Z) : Z :=
  if (c <? 128)
     || (Z.land c 4294965248 =? 55296)
     || (Z.land c 4294967294 =? 65534)
  then 65533 else c.

(** The characters [Utf8Read] yields over a C string.  A byte below 0xc0
    is a character of its own; a lead byte opens a character that takes in
    every continuation byte that follows, in 32-bit unsigned arithmetic.
    [pending] is the character being read, if any. *)
Fixpoint utf8_read (pending : option Z) (s : string) : list Z :=
  match s with
  | EmptyString =>
      match pending with
      | Some c => [utf8_fix c]
      | None => []
      end
  | String a s' =>
      let b := byte_of a in
      let fresh :=
        if 192 <=? b then utf8_read (Some (utf8_lead b)) s'
        else b :: utf8_read None s' in
      match pending with
      | Some c =>
          if is_continuation b
          then utf8_read (Some ((c * 64 + Z.land b 63) mod 4294967296)) s'
          else utf8_fix c :: fresh
      | None => fresh
      end
  end.

Definition lower_point (c : Z) : Z :=
  if (65 <=? c) && (c <=? 90) then c + 32 else c.

(** Two characters are equal to LIKE when they are the same, or both are
    ASCII and the same letter up to case. *)
Definition point_eq (c d : Z) : bool :=
  (c =? d)
  || ((c <? 128) && (d <? 128) && (lower_point c =? lower_point d)).

Fixpoint like_points (pattern : list Z) : list Z -> bool :=
  match pattern with
  | [] =>
      fun s => match s with [] => true | _ :: _ => false end
  | c :: pattern' =>
      if c =? byte_of percent then
        fix skip (s : list Z) : bool :=
          like_points pattern' s
          || match s with
             | [] => false
             | _ :: s' => skip s'
             end
      else if c =? byte_of underscore then
        fun s => match s with
                 | [] => false
                 | _ :: s' => like_points pattern' s'
                 end
      else
        fun s => match s with
                 | [] => false
                 | d :: s' => point_eq c d && like_points pattern' s'
                 end
  end.

Definition like_match (pattern s : string) : bool :=
  like_points (utf8_read None (c_string pattern))
    (utf8_read None (c_string s)).

(** A keyword of plain characters: every byte is ASCII, none is NUL and
    none is a wildcard of LIKE. *)
Definition plain_byte (c : ascii) : bool :=
  (1 <=? byte_of c) && (byte_of c <=? 127)
  && negb (Ascii.eqb c percent) && negb (Ascii.eqb c underscore).

Fixpoint plain_keyword (s : string) : bool :=
  match s with
  | EmptyString => true
  | String c s' => plain_byte c && plain_keyword s'
  end.

(** The engine refuses a LIKE pattern longer than its default
    [SQLITE_MAX_LIKE_PATTERN_LENGTH] with "LIKE or GLOB pattern too complex";
    [None] is that refusal. *)
Definition max_like_pattern_length : Z := 50000.

Definition sql_like (pattern s : string) : option bool :=
  if max_like_pattern_length <? Z.of_nat (String.length pattern) then None
  else Some (like_match pattern s).

(** [where repository like ?] over the rows the cursor visits. *)
Fixpoint where_like (pattern : string) (names : list string) : list string :=
  match names with
  | [] => []
  | name :: rest =>
      match sql_like pattern name with
      | None => []
      | Some true => name :: where_like pattern rest
      | Some false => where_like pattern rest
      end
  end.

(** *** [strconv.Atoi]

    Go's decimal parser on a 64-bit platform: [Atoi] is [ParseInt(s, 10, 0)],
    which reads the magnitude with [ParseUint] and then fits it to [int].
    On a range error the result is the nearest representable value, not 0. *)

Inductive NumError : Set := ErrSyntax | ErrRange.

Definition maxUint64 : Z := 18446744073709551615.
Definition maxInt64 : Z := 9223372036854775807.

Definition is_digit (c : ascii) : bool :=
  (48 <=? nat_of_ascii c)%nat && (nat_of_ascii c <=? 57)%nat.

Definition digit_of (c : ascii) : Z := Z.of_nat (nat_of_ascii c) - 48.

(** The digit loop of [ParseUint] in base 10 with [bitSize] 64: [n] is the
    value read so far. *)
Fixpoint ParseUint_loop (s : string) (n : Z) : Z * option NumError :=
  match s with
  | EmptyString => (n, None)
  | String c s' =>
      if negb (is_digit c) then (0, Some ErrSyntax)
      else if maxUint64 / 10 + 1 <=? n then (maxUint64, Some ErrRange)
      else
        let n1 := n * 10 + digit_of c in
        if maxUint64 <? n1 then (maxUint64, Some ErrRange)
        else ParseUint_loop s' n1
  end.

Definition ParseUint (s : string) : Z * option NumError :=
  match s with
  | EmptyString => (0, Some ErrSyntax)
  | String _ _ => ParseUint_loop s 0
  end.

Definition ParseInt (s : string) : Z * option NumError :=
  match s with
  | EmptyString => (0, Some ErrSyntax)
  | String c s' =>
      let neg := Ascii.eqb c "-"%char in
      let s1 := if Ascii.eqb c "+"%char || neg then s' else s in
      let (un, err) := ParseUint s1 in
      match err with
      | Some ErrSyntax => (0, Some ErrSyntax)
      | _ =>
          let cutoff := maxInt64 + 1 in
          if negb neg && (cutoff <=? un) then (cutoff - 1, Some ErrRange)
          else if neg && (cutoff <? un) then (- cutoff, Some ErrRange)
          else (if neg then - un else un, None)
      end
  end.

Definition Atoi (s : string) : Z * option NumError := ParseInt s.

(** ** Data model *)

(** Wall-clock instants, as nanoseconds. *)
Definition Time : Set := Z.

(** The Go structs returned by the listing. *)
Record Tag : Set := mkTag {
  Tag_Repository : string;
  Tag_Tag : string;
  Tag_Digest : string;
  Tag_Url : string;
  Tag_Status : string;
  Tag_Description : string;
  Tag_TargetURL : string;
  Tag_UpdatedAt : Time
}.

Record Repository : Set := mkRepository {
  Repository_Repository : string;
  Repository_Tags : list Tag
}.

Definition defaultLimit : Z := 20.

Record QueryArgs : Set := mkQueryArgs {
  Keyword : string;
  Skip : Z;
  Limit : Z
}.

Definition prepare (self : QueryArgs) : QueryArgs :=
  let self :=
    if Skip self <? 0 then mkQueryArgs (Keyword self) 0 (Limit self)
    else self in
  if Limit self <? 1 then mkQueryArgs (Keyword self) (Skip self) defaultLimit
  else self.

(** The two tables created by [New]; a table is the list of its rows in
    rowid order. *)
Record tags_row : Set := mk_tags_row {
  tags_id : Z;
  tags_repository : string;
  tags_digest : string;
  tags_url : string;
  tags_tag : string;
  tags_status : string;
  tags_description : string;
  tags_target_url : string;
  tags_updated_at : Time
}.

Record repositories_row : Set := mk_repositories_row {
  repositories_id : Z;
  repositories_repository : string
}.

Record DB : Set := mkDB {
  repositories : list repositories_row;
  tags : list tags_row
}.

Definition empty_db : DB := mkDB [] [].

(** Modelled from the spec: the [notifications] package is not among the
    sources; the spec gives an event's action as the tag push, delete or
    other, and its target as repository name, content digest, source URL and
    media type. *)
Inductive EventAction : Set :=
| EventActionPush
| EventActionDelete
| EventActionOther (name : string).

Record EventTarget : Set := mkTarget {
  Target_MediaType : string;
  Target_Digest : string;
  Target_Repository : string;
  Target_URL : string
}.

Record Event : Set := mkEvent {
  Action : EventAction;
  Target : EventTarget
}.

Definition EventAction_eqb (a b : EventAction) : bool :=
  match a, b with
  | EventActionPush, EventActionPush => true
  | EventActionDelete, EventActionDelete => true
  | EventActionOther x, EventActionOther y => String.eqb x y
  | _, _ => false
  end.

(** ** The SQL statements of the index *)

Inductive Stmt : Set :=
| ReplaceRepository (repository : string)
| ReplaceTag (repository tag digest url : string) (updated_at : Time)
| DeleteTag (repository tag : string)
| DeleteOrphanRepositories
| UpdateTagStatus (status description target_url repository tag : string).

(** The rowid given to a row inserted without one: one more than the
    largest in the table, 1 in an empty table. *)
Definition next_rowid (ids : list Z) : Z := fold_right Z.max 0 ids + 1.

(** [where repository=? and tag=?] *)
Definition tag_key (repository tag : string) (row : tags_row) : bool :=
  String.eqb (tags_repository row) repository && String.eqb (tags_tag row) tag.

Definition set_status (status description target_url : string)
    (row : tags_row) : tags_row :=
  mk_tags_row (tags_id row) (tags_repository row) (tags_digest row)
    (tags_url row) (tags_tag row) status description target_url
    (tags_updated_at row).

Definition run_stmt (q : Stmt) (d : DB) : DB :=
  match q with
  | ReplaceRepository repository =>
      (* replace into repositories(repository) values(?) : the unique index
         on [repository] evicts the row of that name, if any *)
      let id := next_rowid (map repositories_id (repositories d)) in
      mkDB
        (filter (fun r => negb (String.eqb (repositories_repository r) repository))
           (repositories d)
         ++ [mk_repositories_row id repository])
        (tags d)
  | ReplaceTag repository tag digest url updated_at =>
      (* replace into tags(...) values(?,?,?,?,?,'unset','','') : the unique
         index on [(repository, tag)] evicts the row of that key, if any *)
      let id := next_rowid (map tags_id (tags d)) in
      mkDB (repositories d)
        (filter (fun t => negb (tag_key repository tag t)) (tags d)
         ++ [mk_tags_row id repository digest url tag "unset" "" "" updated_at])
  | DeleteTag repository tag =>
      (* delete from tags where repository=? and tag=? *)
      mkDB (repositories d)
        (filter (fun t => negb (tag_key repository tag t)) (tags d))
  | DeleteOrphanRepositories =>
      (* delete from repositories where repository not in
         (select distinct repository from tags) *)
      mkDB
        (filter
           (fun r =>
              existsb (fun t => String.eqb (tags_repository t)
                                  (repositories_repository r)) (tags d))
           (repositories d))
        (tags d)
  | UpdateTagStatus status description target_url repository tag =>
      (* update tags set status=?, description=?, target_url=?
         where repository=? and tag=? *)
      mkDB (repositories d)
        (map (fun t => if tag_key repository tag t
                       then set_status status description target_url t
                       else t)
           (tags d))
  end.

(** ** The world the index runs in *)

(** Go errors that reach the handlers: the sentinel [sql.ErrNoRows], or a
    failure reported by the storage engine. *)
Inductive error : Set :=
| ErrNoRows
| StorageError (code : Z).

(** [db] is the shared store behind the [*sql.DB] handle.  [fault n] is the
    outcome of the [n]-th database call of the process ([Exec], [Prepare],
    [Query], and each [Next] and [Scan] of a cursor): [None] when the
    engine carries it out, [Some code] when it fails; a failed statement
    changes nothing.  [clock n] is what the [n]-th [time.Now()] returns. *)
Record World : Type := mkWorld {
  db : DB;
  calls : nat;
  fault : nat -> option Z;
  ticks : nat;
  clock : nat -> Time
}.

Definition M (A : Type) : Type := World -> A * World.

Definition ret {A : Type} (a : A) : M A := fun w => (a, w).

Definition bind {A B : Type} (m : M A) (k : A -> M B) : M B :=
  fun w => let (a, w') := m w in k a w'.

Notation "x <- m ;; k" := (bind m (fun x => k))
  (at level 61, m at next level, right associativity).

(** One call into [database/sql]: consumes the next outcome. *)
Definition db_call : M (option error) :=
  fun w =>
    (option_map StorageError (fault w (calls w)),
     mkWorld (db w) (S (calls w)) (fault w) (ticks w) (clock w)).

Definition get_db : M DB := fun w => (db w, w).

Definition put_db (d : DB) : M unit :=
  fun w => (tt, mkWorld d (calls w) (fault w) (ticks w) (clock w)).

(** [self.db.Exec(query, args...)], keeping only the error. *)
Definition Exec (q : Stmt) : M (option error) :=
  err <- db_call ;;
  match err with
  | Some e => ret (Some e)
  | None => d <- get_db ;; _ <- put_db (run_stmt q d) ;; ret None
  end.

(** [time.Now()] *)
Definition time_Now : M Time :=
  fun w =>
    (clock w (ticks w),
     mkWorld (db w) (calls w) (fault w) (S (ticks w)) (clock w)).

(** Storage faults and clock of a world in which every call succeeds. *)
Definition no_fault : nat -> option Z := fun _ => None.

Definition fault_free (w : World) : Prop := forall n, fault w n = None.

(** ** The index service *)

Definition parseTag (url : string) : string :=
  let parts := Split url "/"%char in
  let l := List.length parts in
  if (1 <? l)%nat then nth (l - 1) parts "" else "".

Definition delete (event : Event) : M (option error) :=
  let tag := parseTag (Target_URL (Target event)) in
  err <- Exec (DeleteTag (Target_Repository (Target event)) tag) ;;
  match err with
  | None => Exec DeleteOrphanRepositories
  | Some e => ret (Some e)
  end.

Definition add (event : Event) : M (option error) :=
  let target := Target event in
  err <- Exec (ReplaceRepository (Target_Repository target)) ;;
  match err with
  | Some e => ret (Some e)
  | None =>
      let tag := parseTag (Target_URL (Target event)) in
      now <- time_Now ;;
      Exec (ReplaceTag (Target_Repository target) tag (Target_Digest target)
              (Target_URL target) now)
  end.

Definition SetTagStatus (repo tag status description target_url : string)
    : M (option error) :=
  Exec (UpdateTagStatus status description target_url repo tag).

Section Index.

(** [manifest.ManifestMediaType], a constant of a package that is not among
    the sources. *)
Variable ManifestMediaType : string.

(** The order in which the engine yields the rows of a table to a [select]
    without [order by]: some fixed arrangement of the rows. *)
Variable scan_repositories : list repositories_row -> list repositories_row.
Variable scan_tags : list tags_row -> list tags_row.

(** An event the sink has no branch for: not a manifest, or neither a push
    nor a delete. *)
Definition ignored (event : Event) : Prop :=
  Target_MediaType (Target event) <> ManifestMediaType
  \/ (Action event <> EventActionPush /\ Action event <> EventActionDelete).

(** The body of the loop of [Write]: [Some e] is the early [return err]. *)
Definition Write_event (event : Event) : M (option error) :=
  if String.eqb (Target_MediaType (Target event)) ManifestMediaType then
    if EventAction_eqb (Action event) EventActionDelete then delete event
    else if EventAction_eqb (Action event) EventActionPush then add event
    else ret None
  else ret None.

Fixpoint Write (events : list Event) : M (option error) :=
  match events with
  | [] => ret None
  | event :: rest =>
      err <- Write_event event ;;
      match err with
      | Some e => ret (Some e)
      | None => Write rest
      end
  end.

(** Successive deliveries of event batches to the sink, with the error
    each one returned. *)
Fixpoint deliver (batches : list (list Event)) : M (list (option error)) :=
  match batches with
  | [] => ret []
  | events :: rest =>
      err <- Write events ;;
      errs <- deliver rest ;;
      ret (err :: errs)
  end.

(** [select repository from repositories [where repository like ?]
    limit ? offset ?]; the rows stop at the first one the engine fails
    on. *)
Definition select_repositories (args : QueryArgs) (d : DB) : list string :=
  let names := map repositories_repository (scan_repositories (repositories d)) in
  let matching :=
    if (0 <? String.length (Keyword args))%nat then
      where_like ("%" ++ Keyword args ++ "%")%string names
    else names in
  firstn (Z.to_nat (Limit args)) (skipn (Z.to_nat (Skip args)) matching).

Definition scan_Tag (row : tags_row) : Tag :=
  mkTag (tags_repository row) (tags_tag row) (tags_digest row) (tags_url row)
    (tags_status row) (tags_description row) (tags_target_url row)
    (tags_updated_at row).

(** The rows of [select ... from tags where repository = ?], and the tags
    scanned from all of them. *)
Definition select_tag_rows (repository : string) (d : DB) : list tags_row :=
  filter (fun t => String.eqb (tags_repository t) repository)
    (scan_tags (tags d)).

Definition select_tags (repository : string) (d : DB) : list Tag :=
  map scan_Tag (select_tag_rows repository d).

(** The inner loop [for tags.Next() { ... err = tags.Scan(...) ... }] over
    the rows the cursor still has.  [err] is the variable of that name: it
    holds the outcome of the latest [Scan].  A [Next] the engine fails on
    returns false like the one after the last row, and nothing looks at
    [tags.Err()]; a tag whose [Scan] fails is not appended.  The result is
    the tags appended and [err] as the loop leaves it. *)
Fixpoint GetPage_tags (rows : list tags_row) (err : option error)
    : M (list Tag * option error) :=
  match rows with
  | [] =>
      _ <- db_call ;;                    (* tags.Next(): no row left *)
      ret ([], err)
  | row :: rest =>
      next <- db_call ;;                 (* tags.Next() *)
      match next with
      | Some _ => ret ([], err)
      | None =>
          err <- db_call ;;              (* tags.Scan(...) *)
          more <- GetPage_tags rest err ;;
          match err with
          | Some _ => ret more
          | None => ret (scan_Tag row :: fst more, snd more)
          end
      end
  end.

(** The body of the outer loop up to [if err != nil]: the tags of the
    record and [err]. *)
Definition GetPage_record (name : string) : M (list Tag * option error) :=
  err <- db_call ;;                      (* rows.Scan(&record.Repository) *)
  match err with
  | Some e => ret ([], Some e)
  | None =>
      err <- db_call ;;                  (* self.db.Query(..., record.Repository) *)
      match err with
      | Some e => ret ([], Some e)
      | None =>
          d <- get_db ;;
          GetPage_tags (select_tag_rows name d) None
      end
  end.

(** The loop [for rows.Next() { ... }] over the repository rows the cursor
    still has.  A [Next] the engine fails on ends the loop, and nothing
    looks at [rows.Err()]; a record whose [err] is set is logged and left
    out. *)
Fixpoint GetPage_rows (names : list string) : M (list Repository) :=
  match names with
  | [] =>
      _ <- db_call ;;                    (* rows.Next(): no row left *)
      ret []
  | name :: rest =>
      next <- db_call ;;                 (* rows.Next() *)
      match next with
      | Some _ => ret []
      | None =>
          record <- GetPage_record name ;;
          records <- GetPage_rows rest ;;
          match snd record with
          | Some _ => ret records
          | None => ret (mkRepository name (fst record) :: records)
          end
      end
  end.

Definition GetPage (args : QueryArgs) : M (list Repository * option error) :=
  let args := prepare args in
  err <- db_call ;;                      (* self.db.Prepare(query) *)
  match err with
  | Some e => ret ([], Some e)
  | None =>
      err <- db_call ;;                  (* stmt.Query(...) *)
      match err with
      | Some e => ret ([], Some e)
      | None =>
          d <- get_db ;;
          records <- GetPage_rows (select_repositories args d) ;;
          ret (records, None)
      end
  end.

(** ** The HTTP handlers *)

(** [url.Values] and its [Get]: the first value of the key, or the empty
    string. *)
Definition Values : Set := list (string * list string).

Fixpoint Values_Get (v : Values) (key : string) : string :=
  match v with
  | [] => ""
  | (k, vs) :: v' =>
      if String.eqb k key then hd "" vs else Values_Get v' key
  end.

(** The arguments [indexHandler.GetPage] builds from the request form. *)
Definition form_QueryArgs (form : Values) : QueryArgs :=
  let skip := fst (Atoi (Values_Get form "skip")) in
  let limit := fst (Atoi (Values_Get form "limit")) in
  let keyword := Values_Get form "keyword" in
  mkQueryArgs keyword skip limit.

Definition indexHandler_GetPage (form : Values)
    : M (list Repository * option error) :=
  GetPage (form_QueryArgs form).

(** The decoded body of a PATCH: [None] when it is not a JSON object of
    strings, else the key/value pairs; a missing key reads as "". *)
Fixpoint req_get (req : list (string * string)) (key : string) : string :=
  match req with
  | [] => ""
  | (k, v) :: req' => if String.eqb k key then v else req_get req' key
  end.

Definition error_eqb (a b : error) : bool :=
  match a, b with
  | ErrNoRows, ErrNoRows => true
  | StorageError x, StorageError y => Z.eqb x y
  | _, _ => false
  end.

(** [tagStatusHandler.SetTagStatus]: the HTTP status it answers with. *)
Definition tagStatusHandler_SetTagStatus
    (body : option (list (string * string))) : M Z :=
  match body with
  | None => ret 400
  | Some req =>
      err <- SetTagStatus (req_get req "repository") (req_get req "tag")
               (req_get req "status") (req_get req "description")
               (req_get req "target_url") ;;
      match err with
      | Some e => if error_eqb e ErrNoRows then ret 404 else ret 500
      | None => ret 204
      end
  end.

End Index.

(** ** Notions used to state the properties *)

(** The world after one database call that left the tables as [d]. *)
Definition after_call (d : DB) (w : World) : World :=
  mkWorld d (S (calls w)) (fault w) (ticks w) (clock w).

(** The names in the repositories table, and the repositories the tag rows
    refer to. *)
Definition repository_names (d : DB) : list string :=
  map repositories_repository (repositories d).

Definition tagged_repositories (d : DB) : list string :=
  map tags_repository (tags d).

(** A repository row exists if and only if some tag row references it. *)
Definition repository_invariant (d : DB) : Prop :=
  forall r : string, In r (repository_names d) <-> In r (tagged_repositories d).

(** An empty catalog on an engine that never fails, with a clock that
    advances by one at every reading. *)
Definition start_world : World :=
  mkWorld empty_db 0 no_fault 0 (fun n => 1000 + Z.of_nat n).

(** What the patch may do to a row: the row keeps its id, key, digest, URL
    and timestamp; a row of another key is untouched; the row of the key
    [(repo, tag)] gets the three given fields unless the statement failed. *)
Definition patched (repo tag status description target_url : string)
    (err : option error) (old new : tags_row) : Prop :=
  tags_id new = tags_id old
  /\ tags_repository new = tags_repository old
  /\ tags_tag new = tags_tag old
  /\ tags_digest new = tags_digest old
  /\ tags_url new = tags_url old
  /\ tags_updated_at new = tags_updated_at old
  /\ (tag_key repo tag old = false -> new = old)
  /\ (err <> None -> new = old)
  /\ (tag_key repo tag old = true -> err = None ->
      tags_status new = status
      /\ tags_description new = description
      /\ tags_target_url new = target_url).

(** The decimal numeral a string spells, with an optional sign; [None] when
    it spells none.  [leading_digits_value s 0] is the value of the run of
    digits [s] starts with. *)
Fixpoint digits_value (s : string) (acc : Z) : option Z :=
  match s with
  | EmptyString => Some acc
  | String c s' =>
      if is_digit c then digits_value s' (acc * 10 + digit_of c) else None
  end.

Fixpoint leading_digits_value (s : string) (acc : Z) : Z :=
  match s with
  | EmptyString => acc
  | String c s' =>
      if is_digit c then leading_digits_value s' (acc * 10 + digit_of c) else acc
  end.

Definition is_negative (s : string) : bool :=
  match s with
  | String c _ => Ascii.eqb c "-"%char
  | EmptyString => false
  end.

Definition unsigned_part (s : string) : string :=
  match s with
  | String c s' =>
      if Ascii.eqb c "+"%char || Ascii.eqb c "-"%char then s' else s
  | EmptyString => EmptyString
  end.

Definition decimal_value (s : string) : option Z :=
  match unsigned_part s with
  | EmptyString => None
  | String _ _ =>
      option_map (fun v => if is_negative s then - v else v)
        (digits_value (unsigned_part s) 0)
  end.

(** Sample events: a manifest push and delete of tag [v1.2] of
    [library/app], and a pull of the same manifest. *)
Definition sample_media_type : string :=
  "application/vnd.docker.distribution.manifest.v1+json".

Definition sample_target : EventTarget :=
  mkTarget sample_media_type "sha256:0a1b2c" "library/app"
    "http://registry.local/v2/library/app/manifests/v1.2".

Definition sample_push : Event := mkEvent EventActionPush sample_target.
Definition sample_delete : Event := mkEvent EventActionDelete sample_target.
Definition sample_pull : Event := mkEvent (EventActionOther "pull") sample_target.

(** The catalog of the keyword example: three repositories pushed in turn. *)
Definition push_of (repository tag : string) : Event :=
  mkEvent EventActionPush
    (mkTarget sample_media_type "sha256:0a1b2c" repository
       ("http://registry.local/v2/" ++ repository ++ "/manifests/" ++ tag)).

Definition three_repositories : World :=
  snd (Write sample_media_type
         [push_of "alpha/app" "v1"; push_of "beta/app" "v1"; push_of "alpha/tool" "v1"]
         start_world).

Definition upper_case_repository : World :=
  snd (Write sample_media_type [push_of "ALPHA/app" "v1"] start_world).

(** The table order as the scan order. *)
Definition rowid_order {A : Type} (rows : list A) : list A := rows.

(** An engine whose third database call fails with code 5. *)
Definition third_call_fails : World :=
  mkWorld empty_db 0 (fun n => if Nat.eqb n 2 then Some 5 else None) 0
    (fun n => 1000 + Z.of_nat n).

(** ** Further notions *)

(** The key of a tag row, and what the two unique indexes created by [New]
    stand for: no two tag rows of one key, no two repository rows of one
    name. *)
Definition tags_key (row : tags_row) : string * string :=
  (tags_repository row, tags_tag row).

Definition unique_keys (d : DB) : Prop :=
  NoDup (map tags_key (tags d)) /\ NoDup (repository_names d).

(** The names a listing returned. *)
Definition listed_names (result : list Repository * option error * World)
    : list string :=
  map Repository_Repository (fst (fst result)).

(** The record the listing loop builds for a repository row. *)
Definition repository_record (scan_tags : list tags_row -> list tags_row)
    (d : DB) (name : string) : Repository :=
  mkRepository name (select_tags scan_tags name d).

(** What a listing may do to the world: it leaves the store, the outcomes
    and the clock alone and only moves on in the sequence of calls. *)
Definition reads_only (w w' : World) : Prop :=
  db w' = db w /\ fault w' = fault w /\ ticks w' = ticks w
  /\ clock w' = clock w /\ (calls w <= calls w')%nat.

(** [part] is [whole] with some elements left out. *)
Inductive subsequence {A : Type} : list A -> list A -> Prop :=
| subsequence_nil (whole : list A) : subsequence [] whole
| subsequence_skip (a : A) (part whole : list A) :
    subsequence part whole -> subsequence part (a :: whole)
| subsequence_take (a : A) (part whole : list A) :
    subsequence part whole -> subsequence (a :: part) (a :: whole).

(** An engine that carries out every call but the [n]-th. *)
Definition fails_at (n : nat) (w : World) : World :=
  mkWorld (db w) (calls w) (fun k => if Nat.eqb k n then Some 11 else None)
    (ticks w) (clock w).

(** An engine whose second database call fails with code 7. *)
Definition second_call_fails : World :=
  mkWorld empty_db 0 (fun n => if Nat.eqb n 1 then Some 7 else None) 0
    (fun n => 1000 + Z.of_nat n).

(** The sample repository with a second tag. *)
Definition two_tags : World :=
  snd (Write sample_media_type
         [push_of "library/app" "v1.2"; push_of "library/app" "v1.3"]
         start_world).

(** Case analysis on the order tests of a goal, innermost first. *)
Ltac order_tests :=
  repeat match goal with
         | H : (_ <? _) = true |- _ => apply Z.ltb_lt in H
         | H : (_ <? _) = false |- _ => apply Z.ltb_ge in H
         | H : (_ <=? _) = true |- _ => apply Z.leb_le in H
         | H : (_ <=? _) = false |- _ => apply Z.leb_gt in H
         end.

Ltac no_test_inside x :=
  lazymatch x with
  | context [if _ then _ else _] => fail
  | _ => idtac
  end.

Ltac split_tests :=
  repeat match goal with
         | |- context [?x <? ?y] =>
             no_test_inside x; no_test_inside y; destruct (x <? y) eqn:?
         | |- context [?x <=? ?y] =>
             no_test_inside x; no_test_inside y; destruct (x <=? y) eqn:?
         end.

(** * Properties *)

(** ** Splitting and the tag name *)

Lemma Split_nonempty (s : string) (sep : ascii) : Split s sep <> [].
Proof.
  destruct s as [|c s]; simpl; [discriminate|].
  destruct (Ascii.eqb c sep); [discriminate|].
  destruct (Split s sep); discriminate.
Qed.

Lemma Split_no_sep (s : string) (sep : ascii) :
  has_byte sep s = false -> Split s sep = [s].
Proof.
  induction s as [|c s IH]; simpl; intros H; [reflexivity|].
  apply orb_false_iff in H. destruct H as [Hc Hs].
  rewrite Hc, (IH Hs). reflexivity.
Qed.

Lemma Split_app (pre post : string) (sep : ascii) :
  Split (pre ++ String sep post) sep = Split pre sep ++ Split post sep.
Proof.
  induction pre as [|c pre IH]; simpl.
  - rewrite Ascii.eqb_refl. reflexivity.
  - rewrite IH. destruct (Ascii.eqb c sep); [reflexivity|].
    pose proof (Split_nonempty pre sep) as Hne.
    destruct (Split pre sep) as [|p ps]; [contradiction|reflexivity].
Qed.

Lemma parseTag_no_slash (url : string) :
  has_byte "/" url = false -> parseTag url = "".
Proof.
  intros H. unfold parseTag. rewrite (Split_no_sep _ _ H). reflexivity.
Qed.

Lemma parseTag_segment (pre seg : string) :
  has_byte "/" seg = false -> parseTag (pre ++ "/" ++ seg) = seg.
Proof.
  intros H. unfold parseTag.
  change ("/" ++ seg)%string with (String "/" seg).
  rewrite Split_app, (Split_no_sep _ _ H).
  pose proof (Split_nonempty pre "/") as Hne.
  destruct (Split pre "/") as [|p ps] eqn:E; [contradiction|].
  rewrite length_app. simpl List.length.
  replace (S (List.length ps) + 1)%nat with (S (S (List.length ps))) by lia.
  replace (1 <? S (S (List.length ps)))%nat with true
    by (symmetry; apply Nat.ltb_lt; lia).
  replace (S (S (List.length ps)) - 1)%nat
    with (List.length (p :: ps) + 0)%nat by (simpl; lia).
  rewrite app_nth2_plus. reflexivity.
Qed.

(** ** Database calls *)

Lemma Exec_eq (q : Stmt) (w : World) :
  Exec q w =
  match fault w (calls w) with
  | Some code => (Some (StorageError code), after_call (db w) w)
  | None => (None, after_call (run_stmt q (db w)) w)
  end.
Proof.
  unfold Exec, bind, db_call, get_db, put_db, ret, after_call.
  destruct (fault w (calls w)); reflexivity.
Qed.

Lemma Exec_ok (q : Stmt) (w : World) :
  fault w (calls w) = None ->
  Exec q w = (None, after_call (run_stmt q (db w)) w).
Proof. intros H. rewrite Exec_eq, H. reflexivity. Qed.

Lemma fault_free_after_call (d : DB) (w : World) :
  fault_free w -> fault_free (after_call d w).
Proof. intros H n. apply H. Qed.

Lemma add_ok (event : Event) (w : World) :
  fault_free w ->
  exists w',
    add event w = (None, w')
    /\ fault_free w'
    /\ db w' =
       run_stmt
         (ReplaceTag (Target_Repository (Target event))
            (parseTag (Target_URL (Target event)))
            (Target_Digest (Target event)) (Target_URL (Target event))
            (clock w (ticks w)))
         (run_stmt (ReplaceRepository (Target_Repository (Target event))) (db w)).
Proof.
  intros Hf. unfold add, bind at 1.
  rewrite (Exec_ok _ _ (Hf _)). unfold bind, time_Now.
  rewrite Exec_ok by apply Hf.
  eexists. split; [reflexivity|]. split; [|reflexivity].
  intros n. apply Hf.
Qed.

Lemma delete_ok (event : Event) (w : World) :
  fault_free w ->
  exists w',
    delete event w = (None, w')
    /\ fault_free w'
    /\ db w' =
       run_stmt DeleteOrphanRepositories
         (run_stmt
            (DeleteTag (Target_Repository (Target event))
               (parseTag (Target_URL (Target event)))) (db w)).
Proof.
  intros Hf. unfold delete, bind.
  rewrite (Exec_ok _ _ (Hf _)).
  rewrite Exec_ok by apply Hf.
  eexists. split; [reflexivity|]. split; [|reflexivity].
  intros n. apply Hf.
Qed.

(** C6.  The tag name the sink derives from a target URL is its final
    slash-delimited segment: for a URL [pre/seg] with no slash in [seg] it is
    [seg], for a URL without any slash it is empty, and a URL ending in
    [/manifests/v1.2] gives [v1.2].  Push and delete derive it the same way:
    a push of [pre/seg] leaves a row under the tag [seg], a delete of it
    leaves none. *)
Theorem parseTag_final_segment (pre seg : string) :
  has_byte "/" seg = false ->
  parseTag (pre ++ "/" ++ seg) = seg
  /\ parseTag seg = ""
  /\ parseTag (pre ++ "/manifests/v1.2") = "v1.2"
  /\ forall (action : EventAction) (mediatype digest repo : string) (w : World),
       fault_free w ->
       let event :=
         mkEvent action (mkTarget mediatype digest repo (pre ++ "/" ++ seg)) in
       (exists row, In row (tags (db (snd (add event w))))
                    /\ tags_repository row = repo /\ tags_tag row = seg)
       /\ (forall row, In row (tags (db (snd (delete event w)))) ->
                       tag_key repo seg row = false).
Proof.
  intros Hseg. split; [apply parseTag_segment, Hseg|].
  split; [apply parseTag_no_slash, Hseg|].
  split.
  { assert (E : (pre ++ "/manifests/v1.2")%string
                = ((pre ++ "/manifests") ++ "/" ++ "v1.2")%string).
    { clear. induction pre as [|c pre IH]; simpl; [reflexivity|].
      f_equal. exact IH. }
    rewrite E. apply parseTag_segment. reflexivity. }
  intros action mediatype digest repo w Hf event. split.
  - destruct (add_ok event w Hf) as (w' & Hadd & _ & Hdb).
    rewrite Hadd. simpl snd. rewrite Hdb. subst event. simpl.
    rewrite (parseTag_segment _ _ Hseg).
    eexists. split; [apply in_or_app; right; left; reflexivity|].
    split; reflexivity.
  - intros row. destruct (delete_ok event w Hf) as (w' & Hdel & _ & Hdb).
    rewrite Hdel. simpl snd. rewrite Hdb. subst event. simpl.
    rewrite (parseTag_segment _ _ Hseg).
    intros Hin. apply filter_In in Hin. destruct Hin as [_ Hk].
    apply negb_true_iff in Hk. exact Hk.
Qed.

(** ** The statements and the repository invariant *)

Lemma In_map_filter {A B : Type} (f : A -> B) (p : A -> bool) (l : list A) (y : B) :
  In y (map f (filter p l)) <-> exists a, In a l /\ p a = true /\ f a = y.
Proof.
  rewrite in_map_iff. split.
  - intros (a & Hfa & Hin). apply filter_In in Hin. destruct Hin as [Hin Hp].
    exists a. auto.
  - intros (a & Hin & Hp & Hfa). exists a. split; [exact Hfa|].
    apply filter_In. auto.
Qed.

Lemma tag_key_true (repository tag : string) (row : tags_row) :
  tag_key repository tag row = true <->
  tags_repository row = repository /\ tags_tag row = tag.
Proof.
  unfold tag_key. rewrite andb_true_iff, !String.eqb_eq. reflexivity.
Qed.

Lemma invariant_empty : repository_invariant empty_db.
Proof. intros r. simpl. reflexivity. Qed.

Lemma invariant_push (d : DB) (repository tag digest url : string) (now : Time) :
  repository_invariant d ->
  repository_invariant
    (run_stmt (ReplaceTag repository tag digest url now)
       (run_stmt (ReplaceRepository repository) d)).
Proof.
  intros Hinv r. unfold repository_names, tagged_repositories. simpl.
  rewrite !map_app, !in_app_iff. simpl.
  destruct (string_dec repository r) as [E|N].
  - split; intros _; right; left; exact E.
  - rewrite !In_map_filter. split.
    + intros [(a & Hin & _ & Ha)|[E|[]]]; [|contradiction].
      left. assert (Hr : In r (repository_names d))
        by (apply in_map_iff; exists a; auto).
      apply Hinv in Hr. apply in_map_iff in Hr. destruct Hr as (t & Ht & Hin').
      exists t. split; [exact Hin'|]. split; [|exact Ht].
      apply negb_true_iff. destruct (tag_key repository tag t) eqn:K; [|reflexivity].
      apply tag_key_true in K. destruct K as [K _]. congruence.
    + intros [(t & Hin & _ & Ht)|[E|[]]]; [|contradiction].
      left. assert (Hr : In r (tagged_repositories d))
        by (apply in_map_iff; exists t; auto).
      apply Hinv in Hr. apply in_map_iff in Hr. destruct Hr as (a & Ha & Hin').
      exists a. split; [exact Hin'|]. split; [|exact Ha].
      apply negb_true_iff. apply String.eqb_neq. congruence.
Qed.

Lemma invariant_delete (d : DB) (repository tag : string) :
  repository_invariant d ->
  repository_invariant
    (run_stmt DeleteOrphanRepositories (run_stmt (DeleteTag repository tag) d)).
Proof.
  intros Hinv r. unfold repository_names, tagged_repositories. simpl.
  rewrite In_map_filter. split.
  - intros (a & _ & Hex & Ha). apply existsb_exists in Hex.
    destruct Hex as (t & Hin & Ht). apply String.eqb_eq in Ht.
    apply in_map_iff. exists t. split; [congruence|exact Hin].
  - intros Hr. pose proof Hr as Hr'. apply In_map_filter in Hr'.
    destruct Hr' as (t & Hin & _ & Ht).
    assert (Hn : In r (repository_names d)).
    { apply Hinv. apply in_map_iff. exists t. auto. }
    apply in_map_iff in Hn. destruct Hn as (a & Ha & Hin').
    exists a. split; [exact Hin'|]. split; [|exact Ha].
    apply existsb_exists. apply in_map_iff in Hr.
    destruct Hr as (t' & Ht' & Hin''). exists t'. split; [exact Hin''|].
    apply String.eqb_eq. congruence.
Qed.

(** What a successful [add] or [delete] did to the tables. *)
Lemma add_success (event : Event) (w w' : World) :
  add event w = (None, w') ->
  db w' =
  run_stmt
    (ReplaceTag (Target_Repository (Target event))
       (parseTag (Target_URL (Target event)))
       (Target_Digest (Target event)) (Target_URL (Target event))
       (clock w (ticks w)))
    (run_stmt (ReplaceRepository (Target_Repository (Target event))) (db w)).
Proof.
  unfold add, bind at 1. rewrite Exec_eq.
  destruct (fault w (calls w)); [discriminate|].
  unfold bind, time_Now. rewrite Exec_eq. cbn [calls fault after_call].
  destruct (fault w (S (calls w))); [discriminate|].
  intros H. inversion H. reflexivity.
Qed.

Lemma delete_success (event : Event) (w w' : World) :
  delete event w = (None, w') ->
  db w' =
  run_stmt DeleteOrphanRepositories
    (run_stmt
       (DeleteTag (Target_Repository (Target event))
          (parseTag (Target_URL (Target event)))) (db w)).
Proof.
  unfold delete, bind. rewrite Exec_eq.
  destruct (fault w (calls w)); [discriminate|].
  rewrite Exec_eq. cbn [calls fault after_call].
  destruct (fault w (S (calls w))); [discriminate|].
  intros H. inversion H. reflexivity.
Qed.

(** ** The event sink *)

Section Sink.

Variable ManifestMediaType : string.

Lemma EventAction_eqb_eq (a b : EventAction) :
  EventAction_eqb a b = true <-> a = b.
Proof.
  destruct a, b; simpl; split; intros H;
    try reflexivity; try discriminate.
  - apply String.eqb_eq in H. congruence.
  - inversion H. apply String.eqb_refl.
Qed.

Lemma Write_event_ignored (event : Event) (w : World) :
  ignored ManifestMediaType event ->
  Write_event ManifestMediaType event w = (None, w).
Proof.
  intros [Hm|[Hp Hd]]; unfold Write_event.
  - apply String.eqb_neq in Hm. rewrite Hm. reflexivity.
  - destruct (EventAction_eqb (Action event) EventActionDelete) eqn:Ed.
    { apply EventAction_eqb_eq in Ed. contradiction. }
    destruct (EventAction_eqb (Action event) EventActionPush) eqn:Ep.
    { apply EventAction_eqb_eq in Ep. contradiction. }
    destruct (String.eqb _ _); reflexivity.
Qed.

Lemma Write_cons (event : Event) (rest : list Event) (w : World) :
  Write ManifestMediaType (event :: rest) w =
  match Write_event ManifestMediaType event w with
  | (Some e, w') => (Some e, w')
  | (None, w') => Write ManifestMediaType rest w'
  end.
Proof.
  simpl. unfold bind.
  destruct (Write_event ManifestMediaType event w) as [[e|] w']; reflexivity.
Qed.

Lemma Write_app (pre post : list Event) (w : World) :
  Write ManifestMediaType (pre ++ post) w =
  match Write ManifestMediaType pre w with
  | (Some e, w') => (Some e, w')
  | (None, w') => Write ManifestMediaType post w'
  end.
Proof.
  revert w. induction pre as [|event pre IH]; intros w.
  - reflexivity.
  - rewrite <- app_comm_cons, !Write_cons.
    destruct (Write_event ManifestMediaType event w) as [[e|] w'];
      [reflexivity|apply IH].
Qed.

(** C10.  An event that is not a manifest event, or whose action is neither
    push nor delete, is passed over: handling it returns no error and
    leaves the world, both tables included, as it was, and a batch gives
    the same result and final state with or without it. *)
Theorem Write_ignores_other_events (event : Event) :
  ignored ManifestMediaType event ->
  forall (pre post : list Event) (w : World),
    Write_event ManifestMediaType event w = (None, w)
    /\ Write ManifestMediaType [event] w = (None, w)
    /\ Write ManifestMediaType (pre ++ event :: post) w
       = Write ManifestMediaType (pre ++ post) w.
Proof.
  intros Hig pre post w.
  split; [apply Write_event_ignored, Hig|].
  split.
  - rewrite Write_cons, (Write_event_ignored _ _ Hig). reflexivity.
  - rewrite !Write_app.
    destruct (Write ManifestMediaType pre w) as [[e|] w1]; [reflexivity|].
    rewrite Write_cons, (Write_event_ignored _ _ Hig). reflexivity.
Qed.

(** The tables after an event that failed: those before it, possibly with
    the first of its two statements carried out. *)
Lemma Write_event_failure (event : Event) (w w' : World) (e : error) :
  Write_event ManifestMediaType event w = (Some e, w') ->
  db w' = db w
  \/ db w' = run_stmt (ReplaceRepository (Target_Repository (Target event))) (db w)
  \/ db w' = run_stmt (DeleteTag (Target_Repository (Target event))
                         (parseTag (Target_URL (Target event)))) (db w).
Proof.
  unfold Write_event.
  destruct (String.eqb _ _); [|discriminate].
  destruct (EventAction_eqb (Action event) EventActionDelete).
  - unfold delete, bind. rewrite Exec_eq.
    destruct (fault w (calls w)).
    + intros H. inversion H. left. reflexivity.
    + rewrite Exec_eq. cbn [calls fault after_call].
      destruct (fault w (S (calls w))); [|discriminate].
      intros H. inversion H. right. right. reflexivity.
  - destruct (EventAction_eqb (Action event) EventActionPush); [|discriminate].
    unfold add, bind at 1. rewrite Exec_eq.
    destruct (fault w (calls w)).
    + intros H. inversion H. left. reflexivity.
    + unfold bind, time_Now. rewrite Exec_eq. cbn [calls fault after_call].
      destruct (fault w (S (calls w))); [|discriminate].
      intros H. inversion H. right. left. reflexivity.
Qed.

(** C9.  When the events before [event] are processed without error and
    [event] fails with [e], the batch returns [e] and ends in the world
    the failing event left: nothing of the later events is applied, and
    that world's tables are those the earlier events produced, up to the
    failing event's own first statement. *)
Theorem Write_stops_at_first_error
    (pre post : list Event) (event : Event) (w w1 w2 : World) (e : error) :
  Write ManifestMediaType pre w = (None, w1) ->
  Write_event ManifestMediaType event w1 = (Some e, w2) ->
  Write ManifestMediaType (pre ++ event :: post) w = (Some e, w2)
  /\ (db w2 = db w1
      \/ db w2 = run_stmt (ReplaceRepository (Target_Repository (Target event)))
                   (db w1)
      \/ db w2 = run_stmt (DeleteTag (Target_Repository (Target event))
                             (parseTag (Target_URL (Target event)))) (db w1)).
Proof.
  intros Hpre Hev. split.
  - rewrite Write_app, Hpre, Write_cons, Hev. reflexivity.
  - eapply Write_event_failure, Hev.
Qed.

(** A batch that returns an error does so at a first failing event. *)
Lemma Write_error_inv (events : list Event) (w w2 : World) (e : error) :
  Write ManifestMediaType events w = (Some e, w2) ->
  exists pre event post w1,
    events = pre ++ event :: post
    /\ Write ManifestMediaType pre w = (None, w1)
    /\ Write_event ManifestMediaType event w1 = (Some e, w2).
Proof.
  revert w. induction events as [|event rest IH]; intros w.
  - discriminate.
  - rewrite Write_cons.
    destruct (Write_event ManifestMediaType event w) as [[e'|] w'] eqn:Hev.
    + intros H. inversion H; subst.
      exists [], event, rest, w. auto.
    + intros H. destruct (IH _ H) as (pre & ev & post & w1 & -> & Hpre & Hfail).
      exists (event :: pre), ev, post, w1. split; [reflexivity|].
      split; [|exact Hfail].
      rewrite Write_cons, Hev. exact Hpre.
Qed.

Lemma Write_event_invariant (event : Event) (w w' : World) :
  Write_event ManifestMediaType event w = (None, w') ->
  repository_invariant (db w) -> repository_invariant (db w').
Proof.
  unfold Write_event.
  destruct (String.eqb _ _).
  - destruct (EventAction_eqb (Action event) EventActionDelete).
    + intros H Hinv. rewrite (delete_success _ _ _ H).
      apply invariant_delete, Hinv.
    + destruct (EventAction_eqb (Action event) EventActionPush).
      * intros H Hinv. rewrite (add_success _ _ _ H).
        apply invariant_push, Hinv.
      * intros H. inversion H. auto.
  - intros H. inversion H. auto.
Qed.

Lemma Write_invariant (events : list Event) (w w' : World) :
  Write ManifestMediaType events w = (None, w') ->
  repository_invariant (db w) -> repository_invariant (db w').
Proof.
  revert w. induction events as [|event rest IH]; intros w.
  - intros H. inversion H. auto.
  - rewrite Write_cons.
    destruct (Write_event ManifestMediaType event w) as [[e|] w1] eqn:Hev;
      [discriminate|].
    intros H Hinv. apply (IH _ H).
    eapply Write_event_invariant; eauto.
Qed.

(** C3.  Starting from an empty catalog, after any sequence of batches of
    events that the sink processed without error, a repository row exists
    if and only if at least one tag row references that repository. *)
Theorem repository_invariant_after_events
    (batches : list (list Event)) (w : World) :
  db w = empty_db ->
  Forall (fun err => err = None) (fst (deliver ManifestMediaType batches w)) ->
  repository_invariant (db (snd (deliver ManifestMediaType batches w))).
Proof.
  intros Hempty.
  assert (Hinv : repository_invariant (db w))
    by (rewrite Hempty; apply invariant_empty).
  clear Hempty. revert w Hinv.
  induction batches as [|events rest IH]; intros w Hinv Hok.
  - exact Hinv.
  - simpl in *. unfold bind in *.
    destruct (Write ManifestMediaType events w) as [err w1] eqn:Hw.
    specialize (IH w1).
    destruct (deliver ManifestMediaType rest w1) as [errs w2].
    simpl in *. inversion Hok; subst.
    apply IH; [|assumption].
    eapply Write_invariant; eauto.
Qed.

(** C7.  From an empty catalog, a push of tag T in repository R followed by
    a delete of the same tag, both processed without error, leaves no tag
    row and no repository row for R: both tables are empty again. *)
Theorem push_then_delete_leaves_nothing (push del : Event) (w w' : World) :
  db w = empty_db ->
  Target_MediaType (Target push) = ManifestMediaType ->
  Target_MediaType (Target del) = ManifestMediaType ->
  Action push = EventActionPush ->
  Action del = EventActionDelete ->
  Target_Repository (Target del) = Target_Repository (Target push) ->
  parseTag (Target_URL (Target del)) = parseTag (Target_URL (Target push)) ->
  Write ManifestMediaType [push; del] w = (None, w') ->
  filter (fun t => String.eqb (tags_repository t) (Target_Repository (Target push)))
    (tags (db w')) = []
  /\ filter (fun r => String.eqb (repositories_repository r)
                        (Target_Repository (Target push)))
       (repositories (db w')) = []
  /\ db w' = empty_db.
Proof.
  intros Hempty Hmp Hmd Hap Had Hrepo Htag.
  rewrite Write_cons. unfold Write_event at 1.
  rewrite Hmp, Hap, String.eqb_refl. cbn [EventAction_eqb].
  destruct (add push w) as [[e|] w1] eqn:Hadd; [discriminate|].
  rewrite Write_cons. unfold Write_event.
  rewrite Hmd, Had, String.eqb_refl. cbn [EventAction_eqb].
  destruct (delete del w1) as [[e|] w2] eqn:Hdel; [discriminate|].
  intros H. inversion H; subst w'. clear H.
  assert (Hdb : db w2 = empty_db).
  { rewrite (delete_success _ _ _ Hdel), (add_success _ _ _ Hadd).
    rewrite Hempty, Hrepo, Htag. simpl.
    unfold tag_key. simpl. rewrite !String.eqb_refl. reflexivity. }
  rewrite Hdb. auto.
Qed.

End Sink.

(** ** The status patch *)

Lemma SetTagStatus_eq (repo tag status description target_url : string) (w : World) :
  SetTagStatus repo tag status description target_url w =
  match fault w (calls w) with
  | Some code => (Some (StorageError code), after_call (db w) w)
  | None =>
      (None,
       after_call
         (run_stmt (UpdateTagStatus status description target_url repo tag) (db w))
         w)
  end.
Proof. unfold SetTagStatus. apply Exec_eq. Qed.

(** C5.  The patch leaves the repositories table as it was and keeps the
    tags table row for row: every row keeps its id, repository, tag, digest,
    URL and updated-at; rows of other keys are unchanged; the row of the
    patched key takes the given status, description and target reference
    (and nothing changes at all when the statement fails). *)
Theorem SetTagStatus_changes_only_status
    (repo tag status description target_url : string) (w : World) :
  let r := SetTagStatus repo tag status description target_url w in
  repositories (db (snd r)) = repositories (db w)
  /\ Forall2 (patched repo tag status description target_url (fst r))
       (tags (db w)) (tags (db (snd r))).
Proof.
  cbv zeta. rewrite SetTagStatus_eq.
  destruct (fault w (calls w)) as [code|]; simpl.
  - split; [reflexivity|].
    induction (tags (db w)) as [|row rows IH]; constructor; [|exact IH].
    unfold patched. repeat split; intros; try reflexivity.
    all: congruence.
  - split; [reflexivity|].
    induction (tags (db w)) as [|row rows IH]; simpl; constructor; [|exact IH].
    unfold patched.
    destruct (tag_key repo tag row) eqn:K; simpl;
      repeat split; intros; try reflexivity; congruence.
Qed.

(** The handler answers 404 only on [sql.ErrNoRows], which a statement run
    with [Exec] never returns: no request is answered with 404. *)
Lemma tagStatusHandler_never_404
    (body : option (list (string * string))) (w : World) :
  fst (tagStatusHandler_SetTagStatus body w) <> 404.
Proof.
  destruct body as [req|]; simpl; [|discriminate].
  unfold bind. rewrite SetTagStatus_eq.
  destruct (fault w (calls w)); simpl; discriminate.
Qed.

(** A patch of a key without a row, on an engine that carries the statement
    out, is answered with 204 and leaves both tables as they were. *)
Lemma tagStatusHandler_missing_row (req : list (string * string)) (w : World) :
  fault w (calls w) = None ->
  (forall row, In row (tags (db w)) ->
     tag_key (req_get req "repository") (req_get req "tag") row = false) ->
  fst (tagStatusHandler_SetTagStatus (Some req) w) = 204
  /\ db (snd (tagStatusHandler_SetTagStatus (Some req) w)) = db w.
Proof.
  intros Hf Hmiss. simpl. unfold bind. rewrite SetTagStatus_eq, Hf. simpl.
  split; [reflexivity|].
  destruct (db w) as [repos rows]. simpl in *. f_equal.
  induction rows as [|row rows IH]; simpl; [reflexivity|].
  rewrite (Hmiss row (or_introl eq_refl)). f_equal.
  apply IH. intros r Hr. apply Hmiss. right. exact Hr.
Qed.

(** C1.  A PATCH for the pair ("library/app", "v1") on an empty catalog is
    answered with 204, not with the 404 the handler reserves for a missing
    row; the catalog stays empty. *)
Theorem patch_of_missing_tag_answers_204 :
  let req := [("repository", "library/app"); ("tag", "v1"); ("status", "passed")] in
  SetTagStatus "library/app" "v1" "passed" "" "" start_world
    = (None, after_call empty_db start_world)
  /\ fst (tagStatusHandler_SetTagStatus (Some req) start_world) = 204
  /\ db (snd (tagStatusHandler_SetTagStatus (Some req) start_world)) = empty_db.
Proof. cbv zeta. split; [reflexivity|]. split; reflexivity. Qed.

(** ** Pushing the same event again *)

Lemma add_run (event : Event) (w : World) :
  fault_free w ->
  add event w =
  (None,
   mkWorld
     (run_stmt
        (ReplaceTag (Target_Repository (Target event))
           (parseTag (Target_URL (Target event)))
           (Target_Digest (Target event)) (Target_URL (Target event))
           (clock w (ticks w)))
        (run_stmt (ReplaceRepository (Target_Repository (Target event))) (db w)))
     (S (S (calls w))) (fault w) (S (ticks w)) (clock w)).
Proof.
  intros Hf. unfold add, bind at 1.
  rewrite (Exec_ok _ _ (Hf _)). unfold bind, time_Now.
  rewrite Exec_ok by apply Hf. reflexivity.
Qed.

Lemma filter_key_replaced (repository tag : string) (rows : list tags_row)
    (row : tags_row) :
  tag_key repository tag row = true ->
  filter (tag_key repository tag)
    (filter (fun t => negb (tag_key repository tag t)) rows ++ [row]) = [row].
Proof.
  intros K. rewrite filter_app. simpl. rewrite K.
  replace (filter (tag_key repository tag)
             (filter (fun t => negb (tag_key repository tag t)) rows))
    with (@nil tags_row); [reflexivity|].
  induction rows as [|r rows IH]; simpl; [reflexivity|].
  destruct (tag_key repository tag r) eqn:E; simpl; [exact IH|].
  rewrite E. exact IH.
Qed.

Lemma filter_name_replaced (repository : string) (rows : list repositories_row)
    (row : repositories_row) :
  repositories_repository row = repository ->
  filter (fun r => String.eqb (repositories_repository r) repository)
    (filter (fun r => negb (String.eqb (repositories_repository r) repository)) rows
     ++ [row]) = [row].
Proof.
  intros K. rewrite filter_app. simpl. rewrite K, String.eqb_refl.
  replace (filter (fun r => String.eqb (repositories_repository r) repository)
             (filter (fun r => negb (String.eqb (repositories_repository r) repository))
                rows))
    with (@nil repositories_row); [reflexivity|].
  induction rows as [|r rows IH]; simpl; [reflexivity|].
  destruct (String.eqb (repositories_repository r) repository) eqn:E; simpl;
    [exact IH|].
  rewrite E. exact IH.
Qed.

(** C4, as the code has it.  On an engine that carries the statements out,
    pushing an event once or twice from the same state leaves exactly one
    tag row under the key (repository, tag) and one repository row of that
    name; after either, the row has the event's digest and URL, status
    "unset" and empty description and target reference.  The two rows agree
    on all of these; the row id and the updated-at instant are those of the
    latest push. *)
Theorem push_twice_same_row_up_to_timestamp (event : Event) (w : World) :
  fault_free w ->
  let repository := Target_Repository (Target event) in
  let tag := parseTag (Target_URL (Target event)) in
  let once := add event w in
  let twice := add event (snd once) in
  fst once = None /\ fst twice = None
  /\ (exists id1 id2,
        filter (tag_key repository tag) (tags (db (snd once)))
        = [mk_tags_row id1 repository (Target_Digest (Target event))
             (Target_URL (Target event)) tag "unset" "" "" (clock w (ticks w))]
        /\ filter (tag_key repository tag) (tags (db (snd twice)))
           = [mk_tags_row id2 repository (Target_Digest (Target event))
                (Target_URL (Target event)) tag "unset" "" ""
                (clock w (S (ticks w)))])
  /\ (exists id1 id2,
        filter (fun r => String.eqb (repositories_repository r) repository)
          (repositories (db (snd once)))
        = [mk_repositories_row id1 repository]
        /\ filter (fun r => String.eqb (repositories_repository r) repository)
             (repositories (db (snd twice)))
           = [mk_repositories_row id2 repository]).
Proof.
  intros Hf. cbv zeta.
  rewrite (add_run event w Hf). cbn [fst snd].
  rewrite add_run by (intros n; apply Hf). cbn [fst snd db ticks clock].
  split; [reflexivity|]. split; [reflexivity|].
  split.
  - eexists. eexists. split.
    + cbn [run_stmt tags]. apply filter_key_replaced.
      unfold tag_key. cbn. rewrite !String.eqb_refl. reflexivity.
    + cbn [run_stmt tags]. apply filter_key_replaced.
      unfold tag_key. cbn. rewrite !String.eqb_refl. reflexivity.
  - eexists. eexists. split.
    + cbn [run_stmt repositories]. apply filter_name_replaced. reflexivity.
    + cbn [run_stmt repositories]. apply filter_name_replaced. reflexivity.
Qed.

(** ** Examples and instances of the sink's properties *)

Lemma start_world_fault_free : fault_free start_world.
Proof. intros n. reflexivity. Qed.

(** The URL of the sample events is split at the last slash. *)
Lemma parseTag_final_segment_witness :
  has_byte "/" "v1.2" = false
  /\ parseTag ("http://registry.local/v2/library/app/manifests" ++ "/" ++ "v1.2")
     = "v1.2".
Proof.
  split; [reflexivity|].
  exact (proj1 (parseTag_final_segment
                  "http://registry.local/v2/library/app/manifests" "v1.2" eq_refl)).
Defined.

(** A pull between two batches' events changes nothing. *)
Lemma Write_ignores_other_events_witness :
  ignored sample_media_type sample_pull
  /\ Write sample_media_type ([sample_push] ++ sample_pull :: [sample_delete])
       start_world
     = Write sample_media_type ([sample_push] ++ [sample_delete]) start_world.
Proof.
  assert (H : ignored sample_media_type sample_pull)
    by (right; split; discriminate).
  split; [exact H|].
  exact (proj2 (proj2 (Write_ignores_other_events sample_media_type sample_pull H
                         [sample_push] [sample_delete] start_world))).
Defined.

(** The push succeeds, the delete fails at its first statement, and the
    second push is never run: the tag of the first push is still there. *)
Lemma Write_stops_at_first_error_witness :
  Write sample_media_type ([sample_push] ++ sample_delete :: [sample_push])
    third_call_fails
  = (Some (StorageError 5),
     snd (Write_event sample_media_type sample_delete
            (snd (Write sample_media_type [sample_push] third_call_fails)))).
Proof.
  exact (proj1 (Write_stops_at_first_error sample_media_type
                  [sample_push] [sample_push] sample_delete third_call_fails
                  (snd (Write sample_media_type [sample_push] third_call_fails))
                  (snd (Write_event sample_media_type sample_delete
                          (snd (Write sample_media_type [sample_push]
                                  third_call_fails))))
                  (StorageError 5) eq_refl eq_refl)).
Defined.

Lemma repository_invariant_after_events_witness :
  repository_invariant
    (db (snd (deliver sample_media_type
                [[sample_push; sample_pull]; [sample_delete]; [sample_push]]
                start_world))).
Proof.
  apply repository_invariant_after_events.
  - reflexivity.
  - vm_compute. repeat constructor.
Defined.

Lemma push_then_delete_leaves_nothing_witness :
  db (snd (Write sample_media_type [sample_push; sample_delete] start_world))
  = empty_db.
Proof.
  exact (proj2 (proj2 (push_then_delete_leaves_nothing sample_media_type
                         sample_push sample_delete start_world
                         (snd (Write sample_media_type [sample_push; sample_delete]
                                 start_world))
                         eq_refl eq_refl eq_refl eq_refl eq_refl eq_refl eq_refl
                         eq_refl))).
Defined.

Lemma push_twice_same_row_up_to_timestamp_witness :
  fst (add sample_push start_world) = None
  /\ fst (add sample_push (snd (add sample_push start_world))) = None.
Proof.
  pose proof (push_twice_same_row_up_to_timestamp sample_push start_world
                start_world_fault_free) as H.
  cbv zeta in H. destruct H as (H1 & H2 & _). split; [exact H1|exact H2].
Defined.

(** C4 as stated fails: the row left by the second push of the sample event
    is not the row left by the first; its updated-at instant is the later
    reading of the clock (and its row id is a fresh one). *)
Lemma push_twice_differs_in_timestamp :
  tags (db (snd (add sample_push start_world)))
  = [mk_tags_row 1 "library/app" "sha256:0a1b2c"
       "http://registry.local/v2/library/app/manifests/v1.2" "v1.2"
       "unset" "" "" 1000]
  /\ tags (db (snd (add sample_push (snd (add sample_push start_world)))))
     = [mk_tags_row 2 "library/app" "sha256:0a1b2c"
          "http://registry.local/v2/library/app/manifests/v1.2" "v1.2"
          "unset" "" "" 1001]
  /\ tags (db (snd (add sample_push (snd (add sample_push start_world)))))
     <> tags (db (snd (add sample_push start_world))).
Proof.
  split; [reflexivity|]. split; [reflexivity|].
  vm_compute. discriminate.
Qed.

(** ** The LIKE filter *)

Lemma like_points_percent (pattern s : list Z) :
  like_points (byte_of percent :: pattern) s =
  like_points pattern s
  || match s with
     | [] => false
     | _ :: s' => like_points (byte_of percent :: pattern) s'
     end.
Proof. destruct s; reflexivity. Qed.

Lemma like_points_only_percent (s : list Z) :
  like_points [byte_of percent] s = true.
Proof.
  induction s as [|d s IH]; [reflexivity|].
  rewrite like_points_percent, IH. apply orb_true_r.
Qed.

Lemma like_points_literal (c : Z) (pattern s : list Z) :
  c <> byte_of percent -> c <> byte_of underscore ->
  like_points (c :: pattern) s =
  match s with
  | [] => false
  | d :: s' => point_eq c d && like_points pattern s'
  end.
Proof.
  intros Hp Hu. cbn [like_points].
  apply Z.eqb_neq in Hp, Hu. rewrite Hp, Hu. reflexivity.
Qed.

(** *** Bytes and characters *)

Lemma byte_of_range (a : ascii) : 0 <= byte_of a < 256.
Proof.
  unfold byte_of. pose proof (nat_ascii_bounded a). lia.
Qed.

Lemma byte_of_inj (a b : ascii) : byte_of a = byte_of b -> a = b.
Proof.
  unfold byte_of. intros H. apply Nat2Z.inj in H.
  rewrite <- (ascii_nat_embedding a), <- (ascii_nat_embedding b), H.
  reflexivity.
Qed.

Lemma eqb_byte_of (a b : ascii) : Ascii.eqb a b = (byte_of a =? byte_of b).
Proof.
  destruct (Ascii.eqb_spec a b) as [->|Hne].
  - symmetry. apply Z.eqb_refl.
  - symmetry. apply Z.eqb_neq. intros H. apply Hne, byte_of_inj, H.
Qed.

Lemma byte_of_to_lower (a : ascii) :
  byte_of (to_lower a) = lower_point (byte_of a).
Proof. destruct a as [[] [] [] [] [] [] [] []]; reflexivity. Qed.

Lemma lower_point_range (c : Z) :
  (c < 128 -> lower_point c < 128) /\ (128 <= c -> lower_point c = c).
Proof.
  unfold lower_point.
  destruct (65 <=? c) eqn:A; destruct (c <=? 90) eqn:B; cbn [andb];
    order_tests; lia.
Qed.

(** A character outside ASCII equals no ASCII character. *)
Lemma point_eq_high (c p : Z) : c < 128 -> 128 <= p -> point_eq c p = false.
Proof.
  intros Hc Hp. unfold point_eq.
  replace (c =? p) with false by (symmetry; apply Z.eqb_neq; lia).
  replace (p <? 128) with false by (symmetry; apply Z.ltb_ge; lia).
  rewrite andb_false_r. reflexivity.
Qed.

(** On an ASCII pattern byte, equality of characters is equality of the
    case-folded bytes. *)
Lemma point_eq_ascii (k a : ascii) :
  byte_of k < 128 ->
  point_eq (byte_of k) (byte_of a) = Ascii.eqb (to_lower k) (to_lower a).
Proof.
  intros Hk. rewrite eqb_byte_of, !byte_of_to_lower.
  pose proof (byte_of_range a) as Ha.
  destruct (lower_point_range (byte_of k)) as [Lk _].
  destruct (lower_point_range (byte_of a)) as [La Ha'].
  destruct (Z.ltb_spec (byte_of a) 128) as [Hlt|Hge].
  - unfold point_eq.
    replace (byte_of k <? 128) with true by (symmetry; apply Z.ltb_lt; lia).
    replace (byte_of a <? 128) with true by (symmetry; apply Z.ltb_lt; lia).
    cbn [andb].
    destruct (Z.eqb_spec (byte_of k) (byte_of a)) as [E|E]; [|reflexivity].
    rewrite E, Z.eqb_refl. reflexivity.
  - rewrite (point_eq_high _ _ Hk Hge).
    symmetry. apply Z.eqb_neq. rewrite (Ha' Hge). specialize (Lk Hk). lia.
Qed.

Lemma plain_byte_spec (c : ascii) :
  plain_byte c = true ->
  1 <= byte_of c <= 127
  /\ byte_of c <> byte_of percent /\ byte_of c <> byte_of underscore.
Proof.
  unfold plain_byte. intros H.
  apply andb_true_iff in H. destruct H as [H Hu].
  apply andb_true_iff in H. destruct H as [H Hp].
  apply andb_true_iff in H. destruct H as [Hlo Hhi].
  apply negb_true_iff in Hu, Hp. rewrite eqb_byte_of in Hu, Hp.
  apply Z.eqb_neq in Hu, Hp. order_tests. auto.
Qed.

Lemma utf8_fix_high (c : Z) : 128 <= utf8_fix c.
Proof.
  unfold utf8_fix. destruct (c <? 128) eqn:A; cbn [orb]; [lia|].
  order_tests.
  destruct ((Z.land c 4294965248 =? 55296) || (Z.land c 4294967294 =? 65534));
    lia.
Qed.

Lemma utf8_read_ascii (a : ascii) (s : string) :
  byte_of a < 192 ->
  utf8_read None (String a s) = byte_of a :: utf8_read None s.
Proof.
  intros H. cbn [utf8_read].
  replace (192 <=? byte_of a) with false by (symmetry; apply Z.leb_gt; lia).
  reflexivity.
Qed.

Lemma utf8_read_lead (a : ascii) (s : string) :
  192 <= byte_of a ->
  utf8_read None (String a s) = utf8_read (Some (utf8_lead (byte_of a))) s.
Proof.
  intros H. cbn [utf8_read].
  replace (192 <=? byte_of a) with true by (symmetry; apply Z.leb_le; lia).
  reflexivity.
Qed.

(** A character that has been opened ends as a character outside ASCII. *)
Lemma utf8_read_pending (c : Z) (s : string) :
  exists p rest, utf8_read (Some c) s = p :: rest /\ 128 <= p.
Proof.
  revert c. induction s as [|a s IH]; intros c.
  - exists (utf8_fix c), []. split; [reflexivity|apply utf8_fix_high].
  - cbn [utf8_read]. destruct (is_continuation (byte_of a)).
    + apply IH.
    + eexists _, _. split; [reflexivity|apply utf8_fix_high].
Qed.

Lemma c_string_plain (kw rest : string) :
  plain_keyword kw = true -> c_string (kw ++ rest) = (kw ++ c_string rest)%string.
Proof.
  induction kw as [|k kw IH]; intros H; [reflexivity|].
  cbn [plain_keyword] in H. apply andb_true_iff in H. destruct H as [Hk H].
  apply plain_byte_spec in Hk. destruct Hk as (Hk & _ & _).
  cbn [append c_string]. rewrite eqb_byte_of.
  replace (byte_of k =? byte_of zero) with false
    by (symmetry; apply Z.eqb_neq; change (byte_of zero) with 0; lia).
  rewrite (IH H). reflexivity.
Qed.

Lemma c_string_without_nul (s : string) :
  has_byte zero s = false -> c_string s = s.
Proof.
  induction s as [|c s IH]; intros H; [reflexivity|].
  cbn [has_byte] in H. apply orb_false_iff in H. destruct H as [Hc H].
  cbn [c_string]. rewrite Hc, (IH H). reflexivity.
Qed.

Lemma utf8_read_plain (kw rest : string) :
  plain_keyword kw = true ->
  utf8_read None (kw ++ rest)
  = utf8_read None kw ++ utf8_read None rest.
Proof.
  induction kw as [|k kw IH]; intros H; [reflexivity|].
  cbn [plain_keyword] in H. apply andb_true_iff in H. destruct H as [Hk H].
  apply plain_byte_spec in Hk. destruct Hk as (Hk & _ & _).
  cbn [append]. rewrite !utf8_read_ascii by lia. rewrite (IH H). reflexivity.
Qed.

(** *** A keyword of plain characters *)

Lemma like_literal_prefix (kw s : string) :
  plain_keyword kw = true ->
  like_points (utf8_read None (kw ++ String percent "")) (utf8_read None s)
  = HasPrefix (fold_case s) (fold_case kw).
Proof.
  revert s. induction kw as [|k kw IH]; intros s H.
  - cbn [append]. rewrite utf8_read_ascii by (vm_compute; reflexivity).
    change (utf8_read None "") with (@nil Z).
    rewrite like_points_only_percent. destruct s; reflexivity.
  - cbn [plain_keyword] in H. apply andb_true_iff in H. destruct H as [Hk H].
    apply plain_byte_spec in Hk. destruct Hk as (Hk & Hp & Hu).
    cbn [append]. rewrite utf8_read_ascii by lia.
    rewrite (like_points_literal _ _ _ Hp Hu).
    destruct s as [|a s]; [reflexivity|].
    cbn [fold_case HasPrefix]. rewrite <- point_eq_ascii by lia.
    destruct (Z.ltb_spec (byte_of a) 192) as [Ha|Ha].
    + rewrite utf8_read_ascii by lia. rewrite (IH s H). reflexivity.
    + rewrite utf8_read_lead by lia.
      destruct (utf8_read_pending (utf8_lead (byte_of a)) s)
        as (p & rest & -> & Hhigh).
      rewrite !point_eq_high by lia. reflexivity.
Qed.

Lemma like_contains_points (kw s : string) :
  plain_keyword kw = true -> kw <> "" ->
  let pattern := byte_of percent :: utf8_read None (kw ++ String percent "") in
  like_points pattern (utf8_read None s) = Contains (fold_case s) (fold_case kw)
  /\ forall c,
       like_points pattern (utf8_read (Some c) s)
       = Contains (fold_case s) (fold_case kw).
Proof.
  intros H Hne. cbv zeta.
  destruct kw as [|k kw]; [contradiction|].
  assert (Hk : byte_of k < 128).
  { cbn [plain_keyword] in H. apply andb_true_iff in H. destruct H as [Hk _].
    apply plain_byte_spec in Hk. lia. }
  assert (Hhigh : forall p rest,
             128 <= p ->
             like_points (utf8_read None (String k kw ++ String percent ""))
               (p :: rest) = false).
  { intros p rest Hp.
    cbn [plain_keyword] in H. apply andb_true_iff in H. destruct H as [Hb _].
    apply plain_byte_spec in Hb. destruct Hb as (_ & Hpc & Hus).
    cbn [append]. rewrite utf8_read_ascii by lia.
    rewrite (like_points_literal _ _ _ Hpc Hus).
    rewrite point_eq_high by lia. reflexivity. }
  assert (Hbyte : forall a rest,
             128 <= byte_of a ->
             HasPrefix (fold_case (String a rest)) (fold_case (String k kw))
             = false).
  { intros a rest Ha. cbn [fold_case HasPrefix].
    rewrite <- point_eq_ascii by lia. rewrite point_eq_high by lia.
    reflexivity. }
  induction s as [|a s [IH1 IH2]].
  - split.
    + rewrite like_points_percent.
      rewrite (like_literal_prefix _ "" H). cbn [utf8_read].
      cbn [Contains fold_case]. reflexivity.
    + intros c. cbn [utf8_read]. rewrite like_points_percent.
      rewrite (Hhigh _ _ (utf8_fix_high c)). cbn [orb].
      rewrite like_points_percent.
      change (@nil Z) with (utf8_read None "").
      rewrite (like_literal_prefix _ "" H). reflexivity.
  - assert (C1 :
      like_points
        (byte_of percent :: utf8_read None (String k kw ++ String percent ""))
        (utf8_read None (String a s))
      = Contains (fold_case (String a s)) (fold_case (String k kw))).
    { cbn [fold_case Contains].
      change (String (to_lower a) (fold_case s)) with (fold_case (String a s)).
      change (String (to_lower k) (fold_case kw)) with (fold_case (String k kw)).
      destruct (Z.ltb_spec (byte_of a) 192) as [Ha|Ha].
      - rewrite like_points_percent.
        rewrite (like_literal_prefix _ (String a s) H).
        rewrite utf8_read_ascii by lia. rewrite IH1. reflexivity.
      - rewrite (Hbyte a s) by lia. cbn [orb].
        rewrite utf8_read_lead by lia. apply IH2. }
    split; [exact C1|].
    intros c. cbn [utf8_read].
    destruct (is_continuation (byte_of a)) eqn:Hc.
    + rewrite IH2. cbn [fold_case Contains].
      change (String (to_lower a) (fold_case s)) with (fold_case (String a s)).
      change (String (to_lower k) (fold_case kw)) with (fold_case (String k kw)).
      rewrite (Hbyte a s); [reflexivity|].
      unfold is_continuation in Hc. apply andb_true_iff in Hc.
      destruct Hc as [Hc _]. order_tests. lia.
    + rewrite like_points_percent.
      rewrite (Hhigh _ _ (utf8_fix_high c)). cbn [orb].
      exact C1.
Qed.

(** On a non-empty keyword of plain characters, [like '%keyword%'] is
    containment, up to the case of ASCII letters, in the value as the engine
    reads it. *)
Lemma like_contains (kw name : string) :
  plain_keyword kw = true -> kw <> "" ->
  like_match (String percent (kw ++ String percent "")) name
  = Contains (fold_case (c_string name)) (fold_case kw).
Proof.
  intros H Hne. unfold like_match.
  assert (E : c_string (String percent (kw ++ String percent ""))
              = String percent (kw ++ String percent "")).
  { cbn [c_string]. change (Ascii.eqb percent zero) with false. cbv iota.
    rewrite (c_string_plain kw) by exact H. reflexivity. }
  rewrite E. rewrite utf8_read_ascii by (vm_compute; reflexivity).
  apply (like_contains_points kw (c_string name) H Hne).
Qed.

Lemma where_like_filter (pattern : string) (names : list string) :
  Z.of_nat (String.length pattern) <= max_like_pattern_length ->
  where_like pattern names = filter (like_match pattern) names.
Proof.
  intros Hlen. induction names as [|name names IH]; [reflexivity|].
  simpl. unfold sql_like.
  replace (max_like_pattern_length <? Z.of_nat (String.length pattern)) with false
    by (symmetry; apply Z.ltb_ge; exact Hlen).
  rewrite IH. reflexivity.
Qed.

Lemma length_append (a b : string) :
  String.length (a ++ b) = (String.length a + String.length b)%nat.
Proof. induction a as [|c a IH]; simpl; [reflexivity|]. rewrite IH. reflexivity. Qed.

Lemma prepare_fields (args : QueryArgs) :
  Keyword (prepare args) = Keyword args
  /\ Skip (prepare args) = (if Skip args <? 0 then 0 else Skip args)
  /\ Limit (prepare args) = (if Limit args <? 1 then defaultLimit else Limit args).
Proof.
  unfold prepare.
  destruct (Skip args <? 0) eqn:Hs; cbn [Limit Skip Keyword];
    destruct (Limit args <? 1) eqn:Hl; cbn [Limit Skip Keyword];
    rewrite ?Hs; auto.
Qed.

(** ** The paginated listing *)

Section Listing.

Variable scan_repositories : list repositories_row -> list repositories_row.
Variable scan_tags : list tags_row -> list tags_row.

Hypothesis scan_repositories_perm :
  forall rows, Permutation (scan_repositories rows) rows.

Lemma bind_run {A B : Type} (m : M A) (k : A -> M B) (w w' : World) (a : A) :
  m w = (a, w') -> bind m k w = k a w'.
Proof. intros H. unfold bind. rewrite H. reflexivity. Qed.

Lemma db_call_ok (w : World) :
  fault_free w -> db_call w = (None, after_call (db w) w).
Proof. intros Hf. unfold db_call. rewrite (Hf (calls w)). reflexivity. Qed.

Lemma db_call_eq (w : World) :
  db_call w
  = (option_map StorageError (fault w (calls w)), after_call (db w) w).
Proof. reflexivity. Qed.

(** *** The listing only reads *)

Lemma reads_only_refl (w : World) : reads_only w w.
Proof. unfold reads_only. auto. Qed.

Lemma reads_only_trans (w1 w2 w3 : World) :
  reads_only w1 w2 -> reads_only w2 w3 -> reads_only w1 w3.
Proof.
  unfold reads_only. intros (A1 & B1 & C1 & D1 & E1) (A2 & B2 & C2 & D2 & E2).
  rewrite A2, B2, C2, D2. repeat split; auto. lia.
Qed.

Lemma reads_only_call (w : World) : reads_only w (after_call (db w) w).
Proof. unfold reads_only, after_call. cbn. repeat split. lia. Qed.

Lemma reads_only_fault_free (w w' : World) :
  reads_only w w' -> fault_free w -> fault_free w'.
Proof. intros (_ & F & _) Hf n. rewrite F. apply Hf. Qed.

Lemma GetPage_tags_reads (rows : list tags_row) (err : option error) (w : World) :
  reads_only w (snd (GetPage_tags rows err w)).
Proof.
  revert err w. induction rows as [|row rows IH]; intros err w.
  - apply reads_only_call.
  - cbn [GetPage_tags]. rewrite (bind_run _ _ _ _ _ (db_call_eq w)).
    destruct (fault w (calls w)) as [code|]; cbn [option_map].
    + apply reads_only_call.
    + rewrite (bind_run _ _ _ _ _ (db_call_eq _)).
      set (w2 := after_call _ (after_call _ w)).
      set (serr := option_map _ _). clearbody serr.
      assert (H2 : reads_only w w2).
      { eapply reads_only_trans; apply reads_only_call. }
      unfold bind. specialize (IH serr w2).
      destruct (GetPage_tags rows serr w2) as [more w3]. cbn [snd] in IH.
      destruct serr; cbn [snd]; eapply reads_only_trans; eassumption.
Qed.

Lemma GetPage_record_reads (name : string) (w : World) :
  reads_only w (snd (GetPage_record scan_tags name w)).
Proof.
  unfold GetPage_record. rewrite (bind_run _ _ _ _ _ (db_call_eq w)).
  destruct (fault w (calls w)) as [code|]; cbn [option_map].
  - apply reads_only_call.
  - rewrite (bind_run _ _ _ _ _ (db_call_eq _)).
    set (w2 := after_call _ (after_call _ w)).
    assert (H2 : reads_only w w2).
    { eapply reads_only_trans; apply reads_only_call. }
    destruct (fault (after_call (db w) w) (calls (after_call (db w) w)));
      cbn [option_map].
    + exact H2.
    + rewrite (bind_run _ _ _ _ _ (eq_refl : get_db _ = (_, _))).
      eapply reads_only_trans; [exact H2|apply GetPage_tags_reads].
Qed.

Lemma GetPage_rows_reads (names : list string) (w : World) :
  reads_only w (snd (GetPage_rows scan_tags names w)).
Proof.
  revert w. induction names as [|name names IH]; intros w.
  - apply reads_only_call.
  - cbn [GetPage_rows]. rewrite (bind_run _ _ _ _ _ (db_call_eq w)).
    destruct (fault w (calls w)) as [code|]; cbn [option_map].
    + apply reads_only_call.
    + unfold bind.
      pose proof (GetPage_record_reads name (after_call (db w) w)) as R.
      destruct (GetPage_record scan_tags name (after_call (db w) w))
        as [record w2].
      cbn [snd] in R. specialize (IH w2).
      destruct (GetPage_rows scan_tags names w2) as [records w3].
      cbn [snd] in IH.
      assert (H3 : reads_only w w3).
      { eapply reads_only_trans; [apply reads_only_call|].
        eapply reads_only_trans; eassumption. }
      destruct (snd record); exact H3.
Qed.

Lemma GetPage_eq (args : QueryArgs) (w : World) :
  GetPage scan_repositories scan_tags args w =
  match fault w (calls w) with
  | Some code => (([], Some (StorageError code)), after_call (db w) w)
  | None =>
      match fault w (S (calls w)) with
      | Some code =>
          (([], Some (StorageError code)),
           after_call (db w) (after_call (db w) w))
      | None =>
          let rows :=
            GetPage_rows scan_tags
              (select_repositories scan_repositories (prepare args) (db w))
              (after_call (db w) (after_call (db w) w)) in
          ((fst rows, None), snd rows)
      end
  end.
Proof.
  unfold GetPage. rewrite (bind_run _ _ _ _ _ (db_call_eq w)).
  destruct (fault w (calls w)) as [code|]; [reflexivity|]. cbn [option_map].
  rewrite (bind_run _ _ _ _ _ (db_call_eq _)). cbn [after_call fault calls db].
  destruct (fault w (S (calls w))) as [code|]; [reflexivity|]. cbn [option_map].
  rewrite (bind_run _ _ _ _ _ (eq_refl : get_db _ = (_, _))).
  cbn [db]. cbv zeta. unfold bind, after_call.
  destruct (GetPage_rows scan_tags _ _) as [records w2]. reflexivity.
Qed.

Lemma GetPage_reads (args : QueryArgs) (w : World) :
  reads_only w (snd (GetPage scan_repositories scan_tags args w)).
Proof.
  rewrite GetPage_eq.
  destruct (fault w (calls w)); [apply reads_only_call|].
  assert (H2 : reads_only w (after_call (db w) (after_call (db w) w))).
  { apply (reads_only_trans _ (after_call (db w) w));
      [apply reads_only_call|apply (reads_only_call (after_call (db w) w))]. }
  destruct (fault w (S (calls w))); [exact H2|].
  cbv zeta. cbn [snd].
  eapply reads_only_trans; [exact H2|apply GetPage_rows_reads].
Qed.

(** *** On an engine that carries every call out *)

Lemma GetPage_tags_complete (rows : list tags_row) (w : World) :
  fault_free w ->
  fst (GetPage_tags rows None w) = (map scan_Tag rows, None).
Proof.
  revert w. induction rows as [|row rows IH]; intros w Hf; [reflexivity|].
  cbn [GetPage_tags].
  rewrite (bind_run _ _ _ _ _ (db_call_ok w Hf)).
  assert (Hf1 : fault_free (after_call (db w) w))
    by (apply fault_free_after_call, Hf).
  rewrite (bind_run _ _ _ _ _ (db_call_ok _ Hf1)).
  assert (Hf2 : fault_free (after_call (db (after_call (db w) w))
                              (after_call (db w) w)))
    by (apply fault_free_after_call, Hf1).
  specialize (IH _ Hf2). unfold bind.
  destruct (GetPage_tags rows None _) as [more w3].
  cbn [fst] in IH. subst more. reflexivity.
Qed.

Lemma GetPage_record_complete (name : string) (w : World) :
  fault_free w ->
  fst (GetPage_record scan_tags name w) = (select_tags scan_tags name (db w), None).
Proof.
  intros Hf. unfold GetPage_record.
  rewrite (bind_run _ _ _ _ _ (db_call_ok w Hf)).
  assert (Hf1 : fault_free (after_call (db w) w))
    by (apply fault_free_after_call, Hf).
  rewrite (bind_run _ _ _ _ _ (db_call_ok _ Hf1)).
  rewrite (bind_run _ _ _ _ _ (eq_refl : get_db _ = (_, _))).
  apply GetPage_tags_complete, fault_free_after_call, Hf1.
Qed.

Lemma GetPage_rows_complete (names : list string) (w : World) :
  fault_free w ->
  fst (GetPage_rows scan_tags names w)
  = map (repository_record scan_tags (db w)) names.
Proof.
  revert w. induction names as [|name names IH]; intros w Hf; [reflexivity|].
  cbn [GetPage_rows].
  rewrite (bind_run _ _ _ _ _ (db_call_ok w Hf)).
  assert (Hf1 : fault_free (after_call (db w) w))
    by (apply fault_free_after_call, Hf).
  pose proof (GetPage_record_complete name _ Hf1) as R.
  pose proof (GetPage_record_reads name (after_call (db w) w)) as Rr.
  unfold bind.
  destruct (GetPage_record scan_tags name (after_call (db w) w))
    as [record w2].
  cbn [fst snd] in R, Rr. subst record. cbn [fst snd].
  specialize (IH w2 (reads_only_fault_free _ _ Rr Hf1)).
  destruct Rr as (Hdb & _).
  destruct (GetPage_rows scan_tags names w2) as [records w3].
  cbn [fst] in *. subst records. rewrite Hdb. reflexivity.
Qed.

Lemma GetPage_complete (args : QueryArgs) (w : World) :
  fault_free w ->
  fst (GetPage scan_repositories scan_tags args w)
  = (map (repository_record scan_tags (db w))
       (select_repositories scan_repositories (prepare args) (db w)),
     None).
Proof.
  intros Hf. rewrite GetPage_eq, !Hf. cbv zeta. cbn [fst].
  rewrite GetPage_rows_complete
    by (apply fault_free_after_call, fault_free_after_call, Hf).
  reflexivity.
Qed.

Lemma GetPage_names (args : QueryArgs) (w : World) :
  fault_free w ->
  snd (fst (GetPage scan_repositories scan_tags args w)) = None
  /\ map Repository_Repository
       (fst (fst (GetPage scan_repositories scan_tags args w)))
     = select_repositories scan_repositories (prepare args) (db w).
Proof.
  intros Hf. rewrite (GetPage_complete args w Hf). cbn [fst snd].
  split; [reflexivity|].
  rewrite map_map. unfold repository_record. cbn [Repository_Repository].
  apply map_id.
Qed.

(** *** Whatever the engine does *)

Lemma subsequence_refl {A : Type} (l : list A) : subsequence l l.
Proof. induction l; constructor; assumption. Qed.

Lemma subsequence_In {A : Type} (part whole : list A) (x : A) :
  subsequence part whole -> In x part -> In x whole.
Proof.
  induction 1 as [whole|a part whole _ IH|a part whole _ IH]; intros Hin.
  - destruct Hin.
  - right. apply IH, Hin.
  - destruct Hin as [Hx|Hin]; [left; exact Hx|right; apply IH, Hin].
Qed.

Lemma subsequence_NoDup {A : Type} (part whole : list A) :
  subsequence part whole -> NoDup whole -> NoDup part.
Proof.
  induction 1 as [whole|a part whole _ IH|a part whole Hs IH]; intros Hnd.
  - constructor.
  - inversion Hnd; subst. apply IH. assumption.
  - inversion Hnd; subst. constructor; [|apply IH; assumption].
    intros Hin. apply (subsequence_In _ _ _ Hs) in Hin. contradiction.
Qed.

Lemma GetPage_tags_partial (rows : list tags_row) (err : option error) (w : World) :
  subsequence (fst (fst (GetPage_tags rows err w))) (map scan_Tag rows).
Proof.
  revert err w. induction rows as [|row rows IH]; intros err w.
  - constructor.
  - cbn [GetPage_tags map]. rewrite (bind_run _ _ _ _ _ (db_call_eq w)).
    destruct (fault w (calls w)) as [code|]; cbn [option_map].
    + constructor.
    + rewrite (bind_run _ _ _ _ _ (db_call_eq _)).
      set (w2 := after_call _ (after_call _ w)).
      set (serr := option_map _ _). clearbody serr.
      unfold bind. specialize (IH serr w2).
      destruct (GetPage_tags rows serr w2) as [more w3]. cbn [fst] in IH.
      destruct serr; cbn [fst]; constructor; exact IH.
Qed.

Lemma GetPage_record_partial (name : string) (w : World) :
  subsequence (fst (fst (GetPage_record scan_tags name w)))
    (select_tags scan_tags name (db w)).
Proof.
  unfold GetPage_record. rewrite (bind_run _ _ _ _ _ (db_call_eq w)).
  destruct (fault w (calls w)) as [code|]; cbn [option_map].
  - constructor.
  - rewrite (bind_run _ _ _ _ _ (db_call_eq _)).
    destruct (fault (after_call (db w) w) (calls (after_call (db w) w)));
      cbn [option_map].
    + constructor.
    + rewrite (bind_run _ _ _ _ _ (eq_refl : get_db _ = (_, _))).
      apply GetPage_tags_partial.
Qed.

Lemma GetPage_rows_partial (names : list string) (w : World) :
  subsequence (map Repository_Repository (fst (GetPage_rows scan_tags names w)))
    names
  /\ Forall
       (fun rec =>
          subsequence (Repository_Tags rec)
            (select_tags scan_tags (Repository_Repository rec) (db w)))
       (fst (GetPage_rows scan_tags names w)).
Proof.
  revert w. induction names as [|name names IH]; intros w.
  - split; constructor.
  - cbn [GetPage_rows]. rewrite (bind_run _ _ _ _ _ (db_call_eq w)).
    destruct (fault w (calls w)) as [code|]; cbn [option_map].
    + split; constructor.
    + unfold bind.
      pose proof (GetPage_record_partial name (after_call (db w) w)) as P.
      pose proof (GetPage_record_reads name (after_call (db w) w)) as R.
      destruct (GetPage_record scan_tags name (after_call (db w) w))
        as [record w2].
      cbn [fst snd db after_call] in P, R. specialize (IH w2).
      destruct R as (Hdb & _). cbn [db after_call] in Hdb. rewrite Hdb in IH.
      destruct (GetPage_rows scan_tags names w2) as [records w3].
      cbn [fst] in IH. destruct IH as [IHn IHt].
      destruct (snd record); cbn [fst map].
      * split; [constructor; exact IHn|exact IHt].
      * split; [constructor; exact IHn|].
        constructor; [exact P|exact IHt].
Qed.

Lemma GetPage_partial (args : QueryArgs) (w : World) :
  let page := fst (fst (GetPage scan_repositories scan_tags args w)) in
  subsequence (map Repository_Repository page)
    (select_repositories scan_repositories (prepare args) (db w))
  /\ Forall
       (fun rec =>
          subsequence (Repository_Tags rec)
            (select_tags scan_tags (Repository_Repository rec) (db w)))
       page.
Proof.
  cbv zeta. rewrite GetPage_eq.
  destruct (fault w (calls w)); [split; constructor|].
  destruct (fault w (S (calls w))); [split; constructor|].
  cbv zeta. cbn [fst].
  exact (GetPage_rows_partial _ (after_call (db w) (after_call (db w) w))).
Qed.

Lemma In_window {A : Type} (n k : nat) (l : list A) (x : A) :
  In x (firstn n (skipn k l)) -> In x l.
Proof.
  intros H.
  rewrite <- (firstn_skipn k l). apply in_or_app. right.
  rewrite <- (firstn_skipn n (skipn k l)). apply in_or_app. left. exact H.
Qed.

(** C2, as the code has it.  Take an engine that carries the calls out, a
    catalog whose repository names hold no NUL byte, and a non-empty keyword
    of plain characters (ASCII bytes other than NUL, [%] and [_]) that fits
    the engine's pattern length.  The listing returns the page (limit and
    offset after [prepare]) of the repositories whose name contains the
    keyword up to the case of ASCII letters: every listed name is such a
    repository, and when the offset is 0 and the matches fit in the limit
    every such repository is listed. *)
Theorem GetPage_keyword_filter (args : QueryArgs) (w : World) :
  fault_free w ->
  (forall name, In name (repository_names (db w)) -> has_byte zero name = false) ->
  Keyword args <> "" ->
  plain_keyword (Keyword args) = true ->
  Z.of_nat (String.length (Keyword args)) + 2 <= max_like_pattern_length ->
  let listed :=
    map Repository_Repository
      (fst (fst (GetPage scan_repositories scan_tags args w))) in
  let matching :=
    filter (fun name => Contains (fold_case name) (fold_case (Keyword args)))
      (map repositories_repository (scan_repositories (repositories (db w)))) in
  snd (fst (GetPage scan_repositories scan_tags args w)) = None
  /\ listed = firstn (Z.to_nat (Limit (prepare args)))
                (skipn (Z.to_nat (Skip (prepare args))) matching)
  /\ (forall name, In name listed ->
        In name (repository_names (db w))
        /\ Contains (fold_case name) (fold_case (Keyword args)) = true)
  /\ (Skip args <= 0 ->
      Z.of_nat (List.length matching) <= Limit (prepare args) ->
      forall name,
        In name (repository_names (db w)) ->
        Contains (fold_case name) (fold_case (Keyword args)) = true ->
        In name listed).
Proof.
  intros Hf Hnul Hne Hplain Hlen. cbv zeta.
  destruct (GetPage_names args w Hf) as [Herr Hnames].
  assert (Hsel :
    select_repositories scan_repositories (prepare args) (db w)
    = firstn (Z.to_nat (Limit (prepare args)))
        (skipn (Z.to_nat (Skip (prepare args)))
           (filter (fun name => Contains (fold_case name)
                                  (fold_case (Keyword args)))
              (map repositories_repository
                 (scan_repositories (repositories (db w))))))).
  { unfold select_repositories.
    destruct (prepare_fields args) as (Hk & _ & _). rewrite Hk.
    replace (0 <? String.length (Keyword args))%nat with true.
    2:{ symmetry. apply Nat.ltb_lt.
        destruct (Keyword args); [contradiction|simpl; lia]. }
    change ("%" ++ Keyword args ++ "%")%string
      with (String percent (Keyword args ++ String percent "")).
    rewrite where_like_filter.
    2:{ cbn [String.length]. rewrite length_append. cbn [String.length]. lia. }
    f_equal. f_equal. apply filter_ext_in. intros name Hin.
    rewrite like_contains by assumption.
    rewrite c_string_without_nul; [reflexivity|].
    apply Hnul. unfold repository_names.
    eapply Permutation_in; [|exact Hin].
    apply Permutation_map, scan_repositories_perm. }
  rewrite Hnames, Hsel.
  split; [exact Herr|]. split; [reflexivity|]. split.
  - intros name Hin. apply In_window in Hin. apply filter_In in Hin.
    destruct Hin as [Hin Hc]. split; [|exact Hc].
    unfold repository_names.
    eapply Permutation_in; [|exact Hin].
    apply Permutation_map, scan_repositories_perm.
  - intros Hskip Hfit name Hin Hc.
    destruct (prepare_fields args) as (_ & Hs & _). rewrite Hs.
    replace (Z.to_nat (if Skip args <? 0 then 0 else Skip args)) with 0%nat
      by (destruct (Skip args <? 0); lia).
    cbn [skipn]. rewrite firstn_all2 by lia.
    apply filter_In. split; [|exact Hc].
    eapply Permutation_in; [|exact Hin].
    apply Permutation_sym, Permutation_map, scan_repositories_perm.
Qed.

End Listing.

(** The keyword example of the specification: of "alpha/app", "beta/app"
    and "alpha/tool", the keyword "alpha" lists the two that contain it. *)
Lemma GetPage_keyword_filter_witness :
  map Repository_Repository
    (fst (fst (GetPage rowid_order rowid_order (mkQueryArgs "alpha" 0 0)
                 three_repositories)))
  = ["alpha/app"; "alpha/tool"].
Proof.
  assert (Hf : fault_free three_repositories) by (intros n; reflexivity).
  assert (Hne : Keyword (mkQueryArgs "alpha" 0 0) <> "") by discriminate.
  assert (Hlen : Z.of_nat (String.length (Keyword (mkQueryArgs "alpha" 0 0))) + 2
                 <= max_like_pattern_length) by (vm_compute; discriminate).
  assert (Hnul : forall name,
             In name (repository_names (db three_repositories)) ->
             has_byte zero name = false).
  { intros name Hin. vm_compute in Hin.
    destruct Hin as [<-|[<-|[<-|[]]]]; reflexivity. }
  destruct (GetPage_keyword_filter rowid_order rowid_order
              (fun rows => Permutation_refl rows)
              (mkQueryArgs "alpha" 0 0) three_repositories
              Hf Hnul Hne eq_refl Hlen) as (_ & H & _).
  rewrite H. reflexivity.
Defined.

(** C2 as stated fails: the match is not case-sensitive, and [%] and [_] in
    the keyword are wildcards.  The keyword "alpha" lists "ALPHA/app", and
    the keyword "b_t" lists "beta/app", neither of which contains its
    keyword. *)
Lemma GetPage_keyword_is_a_LIKE_pattern :
  map Repository_Repository
    (fst (fst (GetPage rowid_order rowid_order (mkQueryArgs "alpha" 0 0)
                 upper_case_repository)))
  = ["ALPHA/app"]
  /\ Contains "ALPHA/app" "alpha" = false
  /\ map Repository_Repository
       (fst (fst (GetPage rowid_order rowid_order (mkQueryArgs "b_t" 0 0)
                    three_repositories)))
     = ["beta/app"]
  /\ Contains "beta/app" "b_t" = false.
Proof. repeat split; vm_compute; reflexivity. Qed.

(** The engine reads keyword and names as C strings of UTF-8 characters:
    a keyword that starts with a NUL byte is the pattern [%] and lists every
    repository; what follows a NUL byte in a keyword is not matched; and [_]
    stands for one character, here the two bytes of U+00E9. *)
Example like_reads_characters :
  let nul := String zero "" in
  let e_acute := String (ascii_of_nat 195) (String (ascii_of_nat 169) "") in
  map Repository_Repository
    (fst (fst (GetPage rowid_order rowid_order (mkQueryArgs nul 0 0)
                 three_repositories)))
  = ["alpha/app"; "beta/app"; "alpha/tool"]
  /\ like_match ("%a" ++ nul ++ "zzz%") "beta" = true
  /\ like_match ("%a" ++ nul ++ "zzz%") "beta/app" = false
  /\ like_match "caf_" ("caf" ++ e_acute) = true
  /\ like_match "caf__" ("caf" ++ e_acute) = false.
Proof. cbv zeta. repeat split; vm_compute; reflexivity. Qed.

(** ** The query parameters *)

Lemma digit_of_range (c : ascii) : is_digit c = true -> 0 <= digit_of c <= 9.
Proof.
  unfold is_digit, digit_of. intros H.
  apply andb_true_iff in H. destruct H as [H1 H2].
  apply Nat.leb_le in H1, H2. lia.
Qed.

Lemma leading_digits_value_ge (s : string) (acc : Z) :
  0 <= acc -> acc <= leading_digits_value s acc.
Proof.
  revert acc. induction s as [|c s IH]; intros acc Hacc; simpl; [lia|].
  destruct (is_digit c) eqn:Hd; [|lia].
  pose proof (digit_of_range c Hd).
  specialize (IH (acc * 10 + digit_of c)). lia.
Qed.

Lemma digits_value_leading (s : string) (acc v : Z) :
  digits_value s acc = Some v -> leading_digits_value s acc = v.
Proof.
  revert acc. induction s as [|c s IH]; intros acc; simpl.
  - congruence.
  - destruct (is_digit c); [apply IH|discriminate].
Qed.

(** The digit loop against the numeral read without bounds: a range error
    as soon as the leading digits exceed 64 bits, else the value, else a
    syntax error. *)
Lemma ParseUint_loop_spec (s : string) (n : Z) :
  0 <= n <= maxUint64 ->
  ParseUint_loop s n =
  if maxUint64 <? leading_digits_value s n then (maxUint64, Some ErrRange)
  else match digits_value s n with
       | Some v => (v, None)
       | None => (0, Some ErrSyntax)
       end.
Proof.
  revert n. induction s as [|c s IH]; intros n Hn; simpl.
  - replace (maxUint64 <? n) with false by (symmetry; apply Z.ltb_ge; lia).
    reflexivity.
  - destruct (is_digit c) eqn:Hd; simpl.
    + pose proof (digit_of_range c Hd) as Hc.
      pose proof (leading_digits_value_ge s (n * 10 + digit_of c)) as Hge.
      destruct (1844674407370955162 <=? n) eqn:Hcut.
      * apply Z.leb_le in Hcut.
        replace (maxUint64 <? leading_digits_value s (n * 10 + digit_of c))
          with true; [reflexivity|].
        symmetry. apply Z.ltb_lt. unfold maxUint64 in *. lia.
      * destruct (maxUint64 <? n * 10 + digit_of c) eqn:Hov.
        -- apply Z.ltb_lt in Hov.
           replace (maxUint64 <? leading_digits_value s (n * 10 + digit_of c))
             with true; [reflexivity|].
           symmetry. apply Z.ltb_lt. lia.
        -- apply Z.ltb_ge in Hov. apply IH. lia.
    + replace (maxUint64 <? n) with false by (symmetry; apply Z.ltb_ge; lia).
      reflexivity.
Qed.

Lemma ParseUint_spec (s : string) :
  s <> "" ->
  ParseUint s =
  if maxUint64 <? leading_digits_value s 0 then (maxUint64, Some ErrRange)
  else match digits_value s 0 with
       | Some v => (v, None)
       | None => (0, Some ErrSyntax)
       end.
Proof.
  intros Hs. destruct s as [|c s]; [contradiction|].
  unfold ParseUint. apply ParseUint_loop_spec. unfold maxUint64. lia.
Qed.

(** What [Atoi] returns, against the numeral the string spells: the value
    clamped to 64 bits when it spells one; when it spells none, 0, unless
    its leading digits already exceed 64 bits. *)
Lemma Atoi_value (s : string) :
  fst (Atoi s) =
  match decimal_value s with
  | Some v =>
      if v <? - (maxInt64 + 1) then - (maxInt64 + 1)
      else if maxInt64 <? v then maxInt64 else v
  | None =>
      if maxUint64 <? leading_digits_value (unsigned_part s) 0
      then (if is_negative s then - (maxInt64 + 1) else maxInt64)
      else 0
  end.
Proof.
  destruct s as [|c s]; [reflexivity|].
  unfold Atoi, ParseInt, decimal_value.
  cbn [unsigned_part is_negative].
  set (u := if (Ascii.eqb c "+" || Ascii.eqb c "-")%bool then s else String c s).
  destruct u as [|d u'] eqn:Hu.
  - reflexivity.
  - rewrite ParseUint_spec by discriminate.
    destruct (maxUint64 <? leading_digits_value (String d u') 0) eqn:Hov.
    + destruct (digits_value (String d u') 0) as [v|] eqn:Hv.
      * apply digits_value_leading in Hv. rewrite Hv in Hov.
        cbn [option_map]. unfold maxUint64, maxInt64 in *.
        destruct (Ascii.eqb c "-"); cbn [negb andb fst];
          split_tests; order_tests; cbn [fst]; lia.
      * cbn [option_map]. unfold maxUint64, maxInt64 in *.
        destruct (Ascii.eqb c "-"); cbn [negb andb fst];
          split_tests; order_tests; cbn [fst]; lia.
    + destruct (digits_value (String d u') 0) as [v|] eqn:Hv.
      * apply digits_value_leading in Hv. rewrite Hv in Hov.
        cbn [option_map].
        assert (0 <= v)
          by (rewrite <- Hv; apply leading_digits_value_ge; lia).
        unfold maxUint64, maxInt64 in *.
        destruct (Ascii.eqb c "-"); cbn [negb andb fst];
          split_tests; order_tests; cbn [fst]; lia.
      * reflexivity.
Qed.

Lemma prepare_idempotent (args : QueryArgs) : prepare (prepare args) = prepare args.
Proof.
  destruct args as [k s l]. unfold prepare, defaultLimit.
  cbn [Skip Limit Keyword].
  destruct (s <? 0) eqn:Hs; destruct (l <? 1) eqn:Hl;
    cbn [Skip Limit Keyword]; rewrite ?Hs, ?Hl;
    cbn [Skip Limit Keyword]; rewrite ?Hs, ?Hl;
    try reflexivity;
    change (0 <? 0) with false; change (20 <? 1) with false;
    cbn [Skip Limit Keyword]; rewrite ?Hl; reflexivity.
Qed.

(** C8, as the code has it.  The listing runs with the keyword of the form
    and with these arguments: skip is the value of the [skip] parameter when
    it spells a decimal integer from 0 to 2^63-1, 0 when it spells a
    negative one, 2^63-1 when it spells a larger one; when it spells no
    integer, skip is 0, unless the parameter is unsigned or [+]-signed and
    starts with digits that exceed 64 bits, which gives 2^63-1.  Limit is
    the same with the default 20 below 1. *)
Theorem effective_pagination (form : Values) :
  let skip := Values_Get form "skip" in
  let limit := Values_Get form "limit" in
  let args := prepare (form_QueryArgs form) in
  Keyword args = Values_Get form "keyword"
  /\ (forall v, decimal_value skip = Some v ->
        Skip args = if v <? 0 then 0 else if maxInt64 <? v then maxInt64 else v)
  /\ (decimal_value skip = None ->
        Skip args =
        if negb (is_negative skip)
           && (maxUint64 <? leading_digits_value (unsigned_part skip) 0)
        then maxInt64 else 0)
  /\ (forall v, decimal_value limit = Some v ->
        Limit args =
        if v <? 1 then defaultLimit else if maxInt64 <? v then maxInt64 else v)
  /\ (decimal_value limit = None ->
        Limit args =
        if negb (is_negative limit)
           && (maxUint64 <? leading_digits_value (unsigned_part limit) 0)
        then maxInt64 else defaultLimit)
  /\ (forall scan_repositories scan_tags w,
        indexHandler_GetPage scan_repositories scan_tags form w
        = GetPage scan_repositories scan_tags args w).
Proof.
  cbv zeta.
  destruct (prepare_fields (form_QueryArgs form)) as (Hk & Hs & Hl).
  assert (Hskip : Skip (form_QueryArgs form) = fst (Atoi (Values_Get form "skip")))
    by reflexivity.
  assert (Hlimit : Limit (form_QueryArgs form)
                   = fst (Atoi (Values_Get form "limit"))) by reflexivity.
  rewrite Hskip in Hs. rewrite Hlimit in Hl. rewrite Atoi_value in Hs, Hl.
  split; [rewrite Hk; reflexivity|].
  split.
  { intros v Hv. rewrite Hs, Hv. unfold maxInt64.
    split_tests; order_tests; lia. }
  split.
  { intros Hv. rewrite Hs, Hv. unfold maxInt64.
    destruct (is_negative (Values_Get form "skip")); cbn [negb andb];
      split_tests; order_tests; lia. }
  split.
  { intros v Hv. rewrite Hl, Hv. unfold maxInt64, defaultLimit.
    split_tests; order_tests; lia. }
  split.
  { intros Hv. rewrite Hl, Hv. unfold maxInt64, defaultLimit.
    destruct (is_negative (Values_Get form "limit")); cbn [negb andb];
      split_tests; order_tests; lia. }
  intros sr st w. unfold indexHandler_GetPage, GetPage.
  rewrite prepare_idempotent. reflexivity.
Qed.

(** C8 as stated fails: a [skip] or [limit] of twenty nines does not parse
    ([Atoi] reports a range error), yet the listing runs with skip and limit
    2^63-1, not with 0 and 20. *)
Lemma out_of_range_parameter_is_clamped :
  let form := [("skip", ["99999999999999999999"]);
               ("limit", ["99999999999999999999"])] in
  snd (Atoi (Values_Get form "skip")) = Some ErrRange
  /\ snd (Atoi (Values_Get form "limit")) = Some ErrRange
  /\ Skip (prepare (form_QueryArgs form)) = 9223372036854775807
  /\ Limit (prepare (form_QueryArgs form)) = 9223372036854775807.
Proof. cbv zeta. repeat split; vm_compute; reflexivity. Qed.

(** Absent, malformed and negative parameters give skip 0 and limit 20;
    well-formed ones are taken as they are. *)
Example pagination_defaults :
  prepare (form_QueryArgs []) = mkQueryArgs "" 0 20
  /\ prepare (form_QueryArgs [("skip", ["abc"]); ("limit", ["-3"])])
     = mkQueryArgs "" 0 20
  /\ prepare (form_QueryArgs [("skip", ["40"]); ("limit", ["10"]);
                              ("keyword", ["alpha"])])
     = mkQueryArgs "alpha" 40 10.
Proof. repeat split; vm_compute; reflexivity. Qed.

(** * Further properties of the index *)

(** ** What every statement keeps *)

Lemma tag_key_of_key (repository tag : string) (row : tags_row) :
  tag_key repository tag row = true <-> tags_key row = (repository, tag).
Proof.
  rewrite tag_key_true. unfold tags_key. split.
  - intros [-> ->]. reflexivity.
  - intros H. inversion H. auto.
Qed.

Lemma filter_keeps_unique {Row Key : Type} (key : Row -> Key)
    (keep : Row -> bool) (rows : list Row) :
  NoDup (map key rows) -> NoDup (map key (filter keep rows)).
Proof.
  induction rows as [|row rows IH]; simpl; intros Hrows; [constructor|].
  inversion Hrows as [|k ks Hfresh Hrest]; subst.
  destruct (keep row); [|apply IH, Hrest].
  simpl. constructor; [|apply IH, Hrest].
  intros Hin. apply Hfresh. apply In_map_filter in Hin.
  destruct Hin as (other & Hother & _ & Hkey). apply in_map_iff.
  exists other. auto.
Qed.

Lemma NoDup_replaced {A B : Type} (f : A -> B) (p : A -> bool) (l : list A)
    (new : A) :
  (forall a, In a l -> p a = true -> f a <> f new) ->
  NoDup (map f l) -> NoDup (map f (filter p l ++ [new])).
Proof.
  intros Hp Hnd. rewrite map_app. apply NoDup_app.
  - apply filter_keeps_unique, Hnd.
  - simpl. constructor; [intros []|constructor].
  - intros b Hb [Hnew|[]]. apply In_map_filter in Hb.
    destruct Hb as (a & Ha & Hpa & Hfa). apply (Hp a Ha Hpa). congruence.
Qed.

Lemma run_stmt_unique_keys (q : Stmt) (d : DB) :
  unique_keys d -> unique_keys (run_stmt q d).
Proof.
  intros [Ht Hr]. unfold unique_keys, repository_names in *.
  destruct q as [repository|repository tag digest url now|repository tag|
                 |status description target_url repository tag];
    cbn [run_stmt tags repositories].
  - split; [exact Ht|].
    apply NoDup_replaced; [|exact Hr].
    intros a _ Hp. apply negb_true_iff, String.eqb_neq in Hp. exact Hp.
  - split; [|exact Hr].
    apply NoDup_replaced; [|exact Ht].
    intros a _ Hp Hk. apply negb_true_iff in Hp.
    assert (K : tag_key repository tag a = true)
      by (apply tag_key_of_key; rewrite Hk; reflexivity).
    congruence.
  - split; [apply filter_keeps_unique, Ht|exact Hr].
  - split; [exact Ht|apply filter_keeps_unique, Hr].
  - split; [|exact Hr].
    replace (map tags_key
               (map (fun t => if tag_key repository tag t
                              then set_status status description target_url t
                              else t) (tags d)))
      with (map tags_key (tags d)); [exact Ht|].
    rewrite map_map. apply map_ext. intros t.
    destruct (tag_key repository tag t); reflexivity.
Qed.

(** A property of the tables that every statement keeps is kept by a
    database call, whether the engine carries it out or not. *)
Lemma Exec_keeps (P : DB -> Prop) (q : Stmt) (w : World) :
  (forall d, P d -> P (run_stmt q d)) ->
  P (db w) -> P (db (snd (Exec q w))).
Proof.
  intros Hq Hw. rewrite Exec_eq. destruct (fault w (calls w)); simpl; auto.
Qed.

Lemma add_keeps (P : DB -> Prop) (event : Event) (w : World) :
  (forall q d, P d -> P (run_stmt q d)) ->
  P (db w) -> P (db (snd (add event w))).
Proof.
  intros Hq Hw. unfold add, bind at 1. rewrite Exec_eq.
  destruct (fault w (calls w)); [exact Hw|].
  unfold bind, time_Now. apply Exec_keeps; [apply Hq|].
  unfold after_call. cbn [db]. apply Hq, Hw.
Qed.

Lemma delete_keeps (P : DB -> Prop) (event : Event) (w : World) :
  (forall q d, P d -> P (run_stmt q d)) ->
  P (db w) -> P (db (snd (delete event w))).
Proof.
  intros Hq Hw. unfold delete, bind. rewrite Exec_eq.
  destruct (fault w (calls w)); [exact Hw|].
  apply Exec_keeps; [apply Hq|].
  unfold after_call. cbn [db]. apply Hq, Hw.
Qed.

Section Kept.

Variable ManifestMediaType : string.

Lemma Write_event_keeps (P : DB -> Prop) (event : Event) (w : World) :
  (forall q d, P d -> P (run_stmt q d)) ->
  P (db w) -> P (db (snd (Write_event ManifestMediaType event w))).
Proof.
  intros Hq Hw. unfold Write_event.
  destruct (String.eqb _ _); [|exact Hw].
  destruct (EventAction_eqb (Action event) EventActionDelete);
    [apply delete_keeps; assumption|].
  destruct (EventAction_eqb (Action event) EventActionPush);
    [apply add_keeps; assumption|exact Hw].
Qed.

Lemma Write_keeps (P : DB -> Prop) (events : list Event) (w : World) :
  (forall q d, P d -> P (run_stmt q d)) ->
  P (db w) -> P (db (snd (Write ManifestMediaType events w))).
Proof.
  intros Hq. revert w. induction events as [|event rest IH]; intros w Hw.
  - exact Hw.
  - rewrite Write_cons.
    pose proof (Write_event_keeps P event w Hq Hw) as H1.
    destruct (Write_event ManifestMediaType event w) as [[e|] w1];
      simpl in *; [exact H1|apply IH, H1].
Qed.

(** X1.  No batch of events and no patch ever leaves two tag rows under one
    (repository, tag) key or two repository rows of one name, whether the
    batch succeeds or stops at an error. *)
Theorem Write_keeps_unique_keys (events : list Event)
    (repo tag status description target_url : string) (w : World) :
  unique_keys (db w) ->
  unique_keys (db (snd (Write ManifestMediaType events w)))
  /\ unique_keys
       (db (snd (SetTagStatus repo tag status description target_url w))).
Proof.
  intros Hu. split.
  - apply Write_keeps; [intros q d; apply run_stmt_unique_keys|exact Hu].
  - unfold SetTagStatus.
    apply Exec_keeps; [apply run_stmt_unique_keys|exact Hu].
Qed.

End Kept.

Lemma unique_keys_empty : unique_keys empty_db.
Proof. split; constructor. Qed.

Lemma Write_keeps_unique_keys_witness :
  unique_keys (db third_call_fails)
  /\ unique_keys
       (db (snd (Write sample_media_type
                   [sample_push; sample_push; sample_delete; sample_push]
                   third_call_fails))).
Proof.
  split; [exact unique_keys_empty|].
  exact (proj1 (Write_keeps_unique_keys sample_media_type
                  [sample_push; sample_push; sample_delete; sample_push]
                  "" "" "" "" "" third_call_fails unique_keys_empty)).
Defined.

(** ** Deleting and pushing, one event at a time *)

Lemma pruned_repositories_are_tagged (d : DB) (r : string) :
  In r (repository_names (run_stmt DeleteOrphanRepositories d)) ->
  In r (tagged_repositories (run_stmt DeleteOrphanRepositories d)).
Proof.
  unfold repository_names, tagged_repositories. cbn [run_stmt repositories tags].
  rewrite In_map_filter. intros (a & _ & Hex & Ha).
  apply existsb_exists in Hex. destruct Hex as (t & Hin & Ht).
  apply String.eqb_eq in Ht. apply in_map_iff. exists t. split; [congruence|exact Hin].
Qed.

(** X2.  After a delete that returned no error every repository row is
    referenced by a tag row, whatever the tables were before: the prune
    also removes the rows an earlier failure left without a tag. *)
Theorem delete_prunes_every_orphan (event : Event) (w w' : World) :
  delete event w = (None, w') ->
  forall r, In r (repository_names (db w')) -> In r (tagged_repositories (db w')).
Proof.
  intros Hdel r. rewrite (delete_success _ _ _ Hdel).
  apply pruned_repositories_are_tagged.
Qed.

(** X3.  A push whose first statement succeeds and whose second fails
    returns the engine's error, leaves the tags table as it was and a
    repository row of the event's name; when no tag row referenced that
    repository, the repository invariant is broken. *)
Theorem add_failure_leaves_repository (event : Event) (w : World) (code : Z) :
  fault w (calls w) = None ->
  fault w (S (calls w)) = Some code ->
  fst (add event w) = Some (StorageError code)
  /\ tags (db (snd (add event w))) = tags (db w)
  /\ In (Target_Repository (Target event))
       (repository_names (db (snd (add event w))))
  /\ (~ In (Target_Repository (Target event)) (tagged_repositories (db w)) ->
      ~ repository_invariant (db (snd (add event w)))).
Proof.
  intros H0 H1.
  assert (E : add event w =
              (Some (StorageError code),
               mkWorld
                 (run_stmt (ReplaceRepository (Target_Repository (Target event)))
                    (db w))
                 (S (S (calls w))) (fault w) (S (ticks w)) (clock w))).
  { unfold add, bind at 1. rewrite Exec_eq, H0.
    unfold bind, time_Now. rewrite Exec_eq. cbn [calls fault after_call].
    rewrite H1. reflexivity. }
  rewrite E. cbn [fst snd db].
  assert (Hin : In (Target_Repository (Target event))
                  (repository_names
                     (run_stmt (ReplaceRepository
                                  (Target_Repository (Target event))) (db w)))).
  { unfold repository_names. cbn [run_stmt repositories].
    rewrite map_app. apply in_or_app. right. left. reflexivity. }
  split; [reflexivity|]. split; [reflexivity|]. split; [exact Hin|].
  intros Hno Hinv. apply Hno. apply Hinv in Hin. exact Hin.
Qed.

(** X4.  After a successful delete of (R, T) the tag rows are those of the
    other keys, and a repository is still there exactly when it was there
    and a tag row of another key references it: the repository of the
    deleted tag stays as long as it has another tag. *)
Theorem delete_keeps_tagged_repositories (event : Event) (w w' : World) :
  delete event w = (None, w') ->
  let key := tag_key (Target_Repository (Target event))
               (parseTag (Target_URL (Target event))) in
  tags (db w') = filter (fun t => negb (key t)) (tags (db w))
  /\ forall r,
       In r (repository_names (db w')) <->
       In r (repository_names (db w))
       /\ exists t, In t (tags (db w)) /\ key t = false /\ tags_repository t = r.
Proof.
  intros Hdel. cbv zeta. rewrite (delete_success _ _ _ Hdel).
  split; [reflexivity|]. intros r.
  unfold repository_names. cbn [run_stmt repositories tags].
  rewrite In_map_filter. split.
  - intros (a & Hin & Hex & Ha). split.
    + apply in_map_iff. exists a. auto.
    + apply existsb_exists in Hex. destruct Hex as (t & Ht & Heq).
      apply filter_In in Ht. destruct Ht as [Ht Hk].
      apply negb_true_iff in Hk. apply String.eqb_eq in Heq.
      exists t. split; [exact Ht|]. split; [exact Hk|congruence].
  - intros [Hin (t & Ht & Hk & Hr)].
    apply in_map_iff in Hin. destruct Hin as (a & Ha & Hin).
    exists a. split; [exact Hin|]. split; [|exact Ha].
    apply existsb_exists. exists t. split.
    + apply filter_In. split; [exact Ht|]. rewrite Hk. reflexivity.
    + apply String.eqb_eq. congruence.
Qed.

Lemma filter_all {A : Type} (p : A -> bool) (l : list A) :
  (forall a, In a l -> p a = true) -> filter p l = l.
Proof.
  intros H. apply forallb_filter_id. apply forallb_forall. exact H.
Qed.

(** X5.  Deleting the same tag again changes nothing: when two deletes of
    one event both return no error, the tables after the second are the
    tables after the first. *)
Theorem delete_twice (event : Event) (w w1 w2 : World) :
  delete event w = (None, w1) ->
  delete event w1 = (None, w2) ->
  db w2 = db w1.
Proof.
  intros H1 H2.
  assert (Hor : forall r, In r (repository_names (db w1)) ->
                          In r (tagged_repositories (db w1))).
  { intros r. rewrite (delete_success _ _ _ H1).
    apply pruned_repositories_are_tagged. }
  rewrite (delete_success _ _ _ H2).
  assert (Ht : filter (fun t => negb (tag_key (Target_Repository (Target event))
                                        (parseTag (Target_URL (Target event))) t))
                 (tags (db w1)) = tags (db w1)).
  { apply filter_all. intros t Ht.
    rewrite (delete_success _ _ _ H1) in Ht. cbn [run_stmt tags] in Ht.
    apply filter_In in Ht. apply Ht. }
  destruct (db w1) as [repos rows] eqn:E. cbn [run_stmt tags repositories] in *.
  rewrite Ht. f_equal.
  apply filter_all. intros a Ha.
  assert (Hn : In (repositories_repository a) (repository_names (mkDB repos rows)))
    by (apply in_map_iff; exists a; auto).
  apply Hor in Hn. apply in_map_iff in Hn. destruct Hn as (t & Hteq & Hin).
  apply existsb_exists. exists t. split; [exact Hin|].
  apply String.eqb_eq. exact Hteq.
Qed.

(** X6.  A successful push of (R, T) touches nothing else: the tag rows of
    the other keys and the repository rows of the other names are the same
    rows, in the same order, as before. *)
Theorem add_leaves_other_rows (event : Event) (w w' : World) :
  add event w = (None, w') ->
  let other_key t := negb (tag_key (Target_Repository (Target event))
                             (parseTag (Target_URL (Target event))) t) in
  let other_name r := negb (String.eqb (repositories_repository r)
                              (Target_Repository (Target event))) in
  filter other_key (tags (db w')) = filter other_key (tags (db w))
  /\ filter other_name (repositories (db w'))
     = filter other_name (repositories (db w)).
Proof.
  intros Hadd. cbv zeta. rewrite (add_success _ _ _ Hadd).
  cbn [run_stmt tags repositories]. rewrite !filter_app. cbn [filter].
  match goal with
  | |- context [tag_key ?r ?t (mk_tags_row ?a ?b ?c ?d ?e ?f ?g ?h ?i)] =>
      replace (tag_key r t (mk_tags_row a b c d e f g h i)) with true
        by (unfold tag_key; cbn; rewrite !String.eqb_refl; reflexivity)
  end.
  cbn [repositories_repository]. rewrite String.eqb_refl.
  cbn [negb]. rewrite !app_nil_r.
  split.
  - apply filter_all. intros t Ht. apply filter_In in Ht. apply Ht.
  - apply filter_all. intros r Hr. apply filter_In in Hr. apply Hr.
Qed.

(** X7.  Of two successful patches of one key the later one decides: the
    tables are those the second patch alone would have produced. *)
Theorem later_patch_wins
    (repo tag s1 d1 t1 s2 d2 t2 : string) (w w1 w2 : World) :
  SetTagStatus repo tag s1 d1 t1 w = (None, w1) ->
  SetTagStatus repo tag s2 d2 t2 w1 = (None, w2) ->
  db w2 = run_stmt (UpdateTagStatus s2 d2 t2 repo tag) (db w)
  /\ db w2 = db (snd (SetTagStatus repo tag s2 d2 t2 w)).
Proof.
  rewrite !SetTagStatus_eq.
  destruct (fault w (calls w)) eqn:F0; [discriminate|].
  intros H1. inversion H1; subst w1. clear H1.
  cbn [fault calls after_call].
  destruct (fault w (S (calls w))); [discriminate|].
  intros H2. inversion H2; subst w2. clear H2.
  cbn [db snd after_call].
  assert (E : run_stmt (UpdateTagStatus s2 d2 t2 repo tag)
                (run_stmt (UpdateTagStatus s1 d1 t1 repo tag) (db w))
              = run_stmt (UpdateTagStatus s2 d2 t2 repo tag) (db w)).
  { cbn [run_stmt repositories tags]. f_equal.
    rewrite map_map. apply map_ext. intros t.
    destruct (tag_key repo tag t) eqn:K; [|rewrite K; reflexivity].
    unfold tag_key in *. cbn. rewrite K. reflexivity. }
  split; exact E.
Qed.

(** Instances: a push that failed half-way on an empty catalog leaves the
    repository "library/app" without a tag, and the next delete removes it. *)
Lemma add_failure_leaves_repository_witness :
  fst (add sample_push second_call_fails) = Some (StorageError 7)
  /\ repository_names (db (snd (add sample_push second_call_fails)))
     = ["library/app"].
Proof.
  split; [|reflexivity].
  exact (proj1 (add_failure_leaves_repository sample_push second_call_fails 7
                  eq_refl eq_refl)).
Defined.

Lemma delete_prunes_every_orphan_witness :
  incl
    (repository_names
       (db (snd (delete sample_delete (snd (add sample_push second_call_fails))))))
    (tagged_repositories
       (db (snd (delete sample_delete (snd (add sample_push second_call_fails)))))).
Proof.
  exact (delete_prunes_every_orphan sample_delete
           (snd (add sample_push second_call_fails))
           (snd (delete sample_delete (snd (add sample_push second_call_fails))))
           eq_refl).
Defined.

Lemma delete_keeps_tagged_repositories_witness :
  repository_names (db (snd (delete (push_of "library/app" "v1.2") two_tags)))
  = ["library/app"]
  /\ tags (db (snd (delete (push_of "library/app" "v1.2") two_tags)))
     = filter
         (fun t => negb (tag_key "library/app" "v1.2" t))
         (tags (db two_tags)).
Proof.
  split; [reflexivity|].
  exact (proj1 (delete_keeps_tagged_repositories (push_of "library/app" "v1.2")
                  two_tags
                  (snd (delete (push_of "library/app" "v1.2") two_tags))
                  eq_refl)).
Defined.

Lemma delete_twice_witness :
  db (snd (delete sample_delete (snd (delete sample_delete two_tags))))
  = db (snd (delete sample_delete two_tags)).
Proof.
  exact (delete_twice sample_delete two_tags
           (snd (delete sample_delete two_tags))
           (snd (delete sample_delete (snd (delete sample_delete two_tags))))
           eq_refl eq_refl).
Defined.

Lemma add_leaves_other_rows_witness :
  filter (fun t => negb (tag_key "library/app" "v1.4" t))
    (tags (db (snd (add (push_of "library/app" "v1.4") two_tags))))
  = filter (fun t => negb (tag_key "library/app" "v1.4" t)) (tags (db two_tags)).
Proof.
  exact (proj1 (add_leaves_other_rows (push_of "library/app" "v1.4") two_tags
                  (snd (add (push_of "library/app" "v1.4") two_tags)) eq_refl)).
Defined.

Lemma later_patch_wins_witness :
  db (snd (SetTagStatus "library/app" "v1.2" "passed" "ok" ""
             (snd (SetTagStatus "library/app" "v1.2" "failed" "" "" two_tags))))
  = db (snd (SetTagStatus "library/app" "v1.2" "passed" "ok" "" two_tags)).
Proof.
  exact (proj2 (later_patch_wins "library/app" "v1.2" "failed" "" ""
                  "passed" "ok" "" two_tags
                  (snd (SetTagStatus "library/app" "v1.2" "failed" "" "" two_tags))
                  (snd (SetTagStatus "library/app" "v1.2" "passed" "ok" ""
                          (snd (SetTagStatus "library/app" "v1.2" "failed" "" ""
                                  two_tags))))
                  eq_refl eq_refl)).
Defined.

(** ** More on the listing *)

Section Paging.

Variable scan_repositories : list repositories_row -> list repositories_row.
Variable scan_tags : list tags_row -> list tags_row.

Hypothesis scan_repositories_perm :
  forall rows, Permutation (scan_repositories rows) rows.
Hypothesis scan_tags_perm :
  forall rows, Permutation (scan_tags rows) rows.

(** X8.  Listing never writes: whatever the engine does, the tables, the
    clock readings and the engine's future outcomes are the same after
    [GetPage] as before. *)
Theorem GetPage_reads_only (args : QueryArgs) (w : World) :
  let w' := snd (GetPage scan_repositories scan_tags args w) in
  db w' = db w /\ ticks w' = ticks w /\ fault w' = fault w /\ clock w' = clock w
  /\ (calls w <= calls w')%nat.
Proof.
  cbv zeta.
  destruct (GetPage_reads scan_repositories scan_tags args w)
    as (A & B & C & D & E).
  auto.
Qed.

(** X9.  Errors of the listing.  When preparing or running the repository
    query fails, the listing returns that error and no record.  Whatever
    fails after that is not reported: the listing returns no error and a
    page that may be short.  Its records are, in order, some of the selected
    repositories, and the tags of each are, in order, some of the tag rows of
    that repository. *)
Theorem GetPage_outcome (args : QueryArgs) (w : World) :
  let result := fst (GetPage scan_repositories scan_tags args w) in
  match fault w (calls w), fault w (S (calls w)) with
  | Some code, _ => result = ([], Some (StorageError code))
  | None, Some code => result = ([], Some (StorageError code))
  | None, None =>
      snd result = None
      /\ subsequence (map Repository_Repository (fst result))
           (select_repositories scan_repositories (prepare args) (db w))
      /\ Forall
           (fun rec =>
              subsequence (Repository_Tags rec)
                (select_tags scan_tags (Repository_Repository rec) (db w)))
           (fst result)
  end.
Proof.
  cbv zeta.
  pose proof (GetPage_partial scan_repositories scan_tags args w) as P.
  cbv zeta in P. revert P. rewrite GetPage_eq.
  destruct (fault w (calls w)); [reflexivity|].
  destruct (fault w (S (calls w))); [reflexivity|].
  cbv zeta. cbn [fst snd]. intros [Pn Pt]. auto.
Qed.

(** *** Pages *)

Lemma firstn_then_next {A : Type} (n m : nat) (l : list A) :
  firstn n l ++ firstn m (skipn n l) = firstn (n + m) l.
Proof.
  revert l. induction n as [|n IH]; intros l; [reflexivity|].
  destruct l as [|a l]; simpl.
  - rewrite firstn_nil. reflexivity.
  - f_equal. apply IH.
Qed.

Lemma window_then_next {A : Type} (s n m : nat) (l : list A) :
  firstn n (skipn s l) ++ firstn m (skipn (s + n) l)
  = firstn (n + m) (skipn s l).
Proof.
  replace (skipn (s + n) l) with (skipn n (skipn s l))
    by (rewrite skipn_skipn; f_equal; lia).
  apply firstn_then_next.
Qed.

Lemma prepare_valid (args : QueryArgs) :
  0 <= Skip args -> 1 <= Limit args -> prepare args = args.
Proof.
  intros Hs Hl. unfold prepare.
  replace (Skip args <? 0) with false by (symmetry; apply Z.ltb_ge; lia).
  replace (Limit args <? 1) with false by (symmetry; apply Z.ltb_ge; lia).
  reflexivity.
Qed.

Lemma GetPage_store (args : QueryArgs) (w : World) :
  db (snd (GetPage scan_repositories scan_tags args w)) = db w
  /\ fault (snd (GetPage scan_repositories scan_tags args w)) = fault w.
Proof.
  destruct (GetPage_reads scan_repositories scan_tags args w) as (A & B & _).
  auto.
Qed.

(** X10.  Pages fit together: on an engine that carries the calls out, the
    page of [n] repositories at offset [skip] followed by the page of [m] at
    offset [skip + n] is the page of [n + m] at offset [skip], for the same
    keyword; paging through misses and repeats nothing. *)
Theorem GetPage_consecutive_pages (keyword : string) (skip n m : Z) (w : World) :
  fault_free w -> 0 <= skip -> 1 <= n -> 1 <= m ->
  let first :=
    GetPage scan_repositories scan_tags (mkQueryArgs keyword skip n) w in
  let second :=
    GetPage scan_repositories scan_tags (mkQueryArgs keyword (skip + n) m)
      (snd first) in
  snd (fst first) = None /\ snd (fst second) = None
  /\ listed_names first ++ listed_names second
     = listed_names
         (GetPage scan_repositories scan_tags (mkQueryArgs keyword skip (n + m)) w).
Proof.
  intros Hf Hs Hn Hm. cbv zeta.
  destruct (GetPage_store (mkQueryArgs keyword skip n) w) as [Hdb Hfault].
  assert (Hf1 : fault_free
                  (snd (GetPage scan_repositories scan_tags
                          (mkQueryArgs keyword skip n) w)))
    by (intros k; rewrite Hfault; apply Hf).
  destruct (GetPage_names scan_repositories scan_tags
              (mkQueryArgs keyword skip n) w Hf) as [E1 N1].
  destruct (GetPage_names scan_repositories scan_tags
              (mkQueryArgs keyword (skip + n) m) _ Hf1) as [E2 N2].
  destruct (GetPage_names scan_repositories scan_tags
              (mkQueryArgs keyword skip (n + m)) w Hf) as [_ N3].
  split; [exact E1|]. split; [exact E2|].
  unfold listed_names. rewrite N1, N2, N3, Hdb.
  rewrite !prepare_valid by (cbn [Skip Limit]; lia).
  unfold select_repositories. cbn [Keyword Skip Limit].
  rewrite !Z2Nat.inj_add by lia.
  apply window_then_next.
Qed.

(** X11.  Without a keyword, on an engine that carries the calls out, the
    listing is the window of all repository rows in scan order, and its
    size is the limit or what is left after the offset, whichever is
    less. *)
Theorem GetPage_without_keyword (args : QueryArgs) (w : World) :
  fault_free w -> Keyword args = "" ->
  let result := GetPage scan_repositories scan_tags args w in
  let limit := Z.to_nat (Limit (prepare args)) in
  let skip := Z.to_nat (Skip (prepare args)) in
  listed_names result
  = firstn limit
      (skipn skip
         (map repositories_repository (scan_repositories (repositories (db w)))))
  /\ List.length (listed_names result)
     = Nat.min limit (List.length (repositories (db w)) - skip).
Proof.
  intros Hf Hk. cbv zeta.
  destruct (GetPage_names scan_repositories scan_tags args w Hf) as [_ N].
  unfold listed_names. rewrite N. unfold select_repositories.
  destruct (prepare_fields args) as (Hk' & _ & _). rewrite Hk', Hk.
  cbn [String.length Nat.ltb Nat.leb]. split; [reflexivity|].
  rewrite length_firstn, length_skipn, length_map.
  rewrite (Permutation_length (scan_repositories_perm _)). reflexivity.
Qed.

(** *** The tags of a listed repository *)

Lemma In_select_tags (name : string) (d : DB) (t : Tag) :
  In t (select_tags scan_tags name d) <->
  exists row, In row (tags d) /\ tags_repository row = name /\ t = scan_Tag row.
Proof.
  unfold select_tags, select_tag_rows. rewrite In_map_filter. split.
  - intros (row & Hin & Heq & Ht). exists row.
    split; [eapply Permutation_in; [apply scan_tags_perm|exact Hin]|].
    apply String.eqb_eq in Heq. auto.
  - intros (row & Hin & Heq & Ht). exists row.
    split; [eapply Permutation_in;
            [apply Permutation_sym, scan_tags_perm|exact Hin]|].
    split; [apply String.eqb_eq; exact Heq|auto].
Qed.

(** X12.  The tags of a listed record.  Whatever the engine does, every
    tag of a record of a page is a row of the tags table that references the
    record's repository, read field for field.  On an engine that carries the
    calls out every record carries the whole tag set of its repository,
    whatever the limit and offset. *)
Theorem GetPage_records_carry_all_tags (args : QueryArgs) (w : World) :
  let page := fst (fst (GetPage scan_repositories scan_tags args w)) in
  let tag_of rec t :=
    exists row, In row (tags (db w))
                /\ tags_repository row = Repository_Repository rec
                /\ t = scan_Tag row in
  Forall (fun rec => forall t, In t (Repository_Tags rec) -> tag_of rec t) page
  /\ (fault_free w ->
      Forall (fun rec => forall t, In t (Repository_Tags rec) <-> tag_of rec t)
        page).
Proof.
  cbv zeta. split.
  - destruct (GetPage_partial scan_repositories scan_tags args w) as [_ P].
    eapply Forall_impl; [|exact P]. cbv beta. intros rec Hsub t Hin.
    apply In_select_tags. eapply subsequence_In; eassumption.
  - intros Hf.
    rewrite (GetPage_complete scan_repositories scan_tags args w Hf).
    cbn [fst]. apply Forall_forall. intros rec Hin.
    apply in_map_iff in Hin. destruct Hin as (name & <- & _).
    intros t. unfold repository_record.
    cbn [Repository_Tags Repository_Repository].
    apply In_select_tags.
Qed.

(** *** No repository twice *)

Lemma NoDup_window {A : Type} (count offset : nat) (rows : list A) :
  NoDup rows -> NoDup (firstn count (skipn offset rows)).
Proof.
  intros Hrows.
  assert (Hrest : NoDup (skipn offset rows)).
  { rewrite <- (firstn_skipn offset rows) in Hrows.
    exact (NoDup_app_remove_l _ _ Hrows). }
  rewrite <- (firstn_skipn count (skipn offset rows)) in Hrest.
  exact (NoDup_app_remove_r _ _ Hrest).
Qed.

Lemma where_like_sub (pattern : string) (names : list string) :
  (forall x, In x (where_like pattern names) -> In x names)
  /\ (NoDup names -> NoDup (where_like pattern names)).
Proof.
  induction names as [|name names [IHin IHnd]]; simpl.
  - split; [auto|intros; constructor].
  - destruct (sql_like pattern name) as [[|]|].
    + split.
      * intros x [Hx|Hx]; [left; exact Hx|right; apply IHin, Hx].
      * intros H. inversion H; subst. constructor; [|apply IHnd; assumption].
        intros Hin. apply IHin in Hin. contradiction.
    + split; [intros x Hx; right; apply IHin, Hx|].
      intros H. inversion H; subst. apply IHnd. assumption.
    + split; [intros x []|intros; constructor].
Qed.

Lemma select_repositories_NoDup (args : QueryArgs) (d : DB) :
  NoDup (repository_names d) ->
  NoDup (select_repositories scan_repositories args d).
Proof.
  intros H. unfold select_repositories.
  apply NoDup_window.
  assert (Hs : NoDup (map repositories_repository
                        (scan_repositories (repositories d)))).
  { eapply Permutation_NoDup; [|exact H].
    apply Permutation_sym, Permutation_map, scan_repositories_perm. }
  destruct (0 <? String.length (Keyword args))%nat; [|exact Hs].
  apply where_like_sub, Hs.
Qed.

(** X13.  While the repository names are unique, as the sink keeps them, no
    page lists a repository twice, whatever the engine does. *)
Theorem GetPage_lists_no_repository_twice (args : QueryArgs) (w : World) :
  unique_keys (db w) ->
  NoDup (listed_names (GetPage scan_repositories scan_tags args w)).
Proof.
  intros [_ Hu]. unfold listed_names.
  destruct (GetPage_partial scan_repositories scan_tags args w) as [P _].
  eapply subsequence_NoDup; [exact P|].
  apply select_repositories_NoDup, Hu.
Qed.

(** *** From a push to the listing *)

(** X14.  What a push stores is what the listing shows: after a successful
    push, a listing without keyword and with room for every repository
    holds a record of the event's repository with a tag of the derived
    name, the event's digest and URL, status "unset", empty description
    and target reference, stamped with the clock reading of the push. *)
Theorem pushed_tag_is_listed (event : Event) (args : QueryArgs) (w : World) :
  fault_free w ->
  Keyword args = "" ->
  Skip args <= 0 ->
  Z.of_nat (List.length (repositories (db w))) + 1 <= Limit args ->
  exists rec,
    In rec (fst (fst (GetPage scan_repositories scan_tags args
                        (snd (add event w)))))
    /\ Repository_Repository rec = Target_Repository (Target event)
    /\ In (mkTag (Target_Repository (Target event))
             (parseTag (Target_URL (Target event)))
             (Target_Digest (Target event)) (Target_URL (Target event))
             "unset" "" "" (clock w (ticks w)))
         (Repository_Tags rec).
Proof.
  intros Hf Hk Hs Hl.
  rewrite (add_run event w Hf). cbn [snd].
  rewrite GetPage_complete by (intros k; apply Hf).
  cbn [fst db].
  set (R := Target_Repository (Target event)).
  set (d1 := run_stmt _ (run_stmt (ReplaceRepository R) (db w))).
  exists (repository_record scan_tags d1 R). split; [|split; [reflexivity|]].
  - apply in_map. unfold select_repositories.
    destruct (prepare_fields args) as (Hk' & Hs' & Hl').
    rewrite Hk', Hk, Hs', Hl'. cbn [String.length Nat.ltb Nat.leb].
    replace (Z.to_nat (if Skip args <? 0 then 0 else Skip args)) with 0%nat
      by (destruct (Skip args <? 0); lia).
    cbn [skipn].
    assert (Hlen : (List.length (repositories d1)
                    <= S (List.length (repositories (db w))))%nat).
    { subst d1. cbn [run_stmt repositories]. rewrite length_app. cbn [List.length].
      pose proof (filter_length_le
                    (fun r => negb (String.eqb (repositories_repository r) R))
                    (repositories (db w))). lia. }
    rewrite firstn_all2.
    2:{ rewrite length_map, (Permutation_length (scan_repositories_perm _)).
        unfold defaultLimit. destruct (Limit args <? 1) eqn:E; order_tests; lia. }
    eapply Permutation_in;
      [apply Permutation_sym, Permutation_map, scan_repositories_perm|].
    subst d1. cbn [run_stmt repositories]. rewrite map_app.
    apply in_or_app. right. left. reflexivity.
  - unfold repository_record. cbn [Repository_Tags]. apply In_select_tags.
    eexists. split.
    + subst d1. cbn [run_stmt tags]. apply in_or_app. right. left. reflexivity.
    + split; reflexivity.
Qed.

End Paging.

(** Instances on the sample catalogs, with the rowid order as scan order. *)
Lemma three_repositories_fault_free : fault_free three_repositories.
Proof. intros n. reflexivity. Qed.

Lemma three_repositories_unique : unique_keys (db three_repositories).
Proof.
  unfold three_repositories.
  apply Write_keeps; [intros q d; apply run_stmt_unique_keys|].
  exact unique_keys_empty.
Qed.

Lemma GetPage_consecutive_pages_witness :
  listed_names
    (GetPage rowid_order rowid_order (mkQueryArgs "" 0 2) three_repositories)
  ++ listed_names
       (GetPage rowid_order rowid_order (mkQueryArgs "" (0 + 2) 1)
          (snd (GetPage rowid_order rowid_order (mkQueryArgs "" 0 2)
                  three_repositories)))
  = listed_names
      (GetPage rowid_order rowid_order (mkQueryArgs "" 0 (2 + 1))
         three_repositories).
Proof.
  assert (H0 : 0 <= 0) by lia. assert (H2 : 1 <= 2) by lia.
  assert (H1 : 1 <= 1) by lia.
  exact (proj2 (proj2 (GetPage_consecutive_pages rowid_order rowid_order
                         "" 0 2 1 three_repositories
                         three_repositories_fault_free H0 H2 H1))).
Defined.

Lemma GetPage_without_keyword_witness :
  List.length
    (listed_names
       (GetPage rowid_order rowid_order (mkQueryArgs "" 1 0) three_repositories))
  = 2%nat.
Proof.
  exact (proj2 (GetPage_without_keyword rowid_order rowid_order
                  (fun rows => Permutation_refl rows)
                  (mkQueryArgs "" 1 0) three_repositories
                  three_repositories_fault_free eq_refl)).
Defined.

Lemma GetPage_records_carry_all_tags_witness :
  Forall
    (fun rec =>
       forall t, In t (Repository_Tags rec) <->
                 exists row, In row (tags (db two_tags))
                             /\ tags_repository row = Repository_Repository rec
                             /\ t = scan_Tag row)
    (fst (fst (GetPage rowid_order rowid_order (mkQueryArgs "" 0 0) two_tags))).
Proof.
  assert (Hf : fault_free two_tags) by (intros n; reflexivity).
  exact (proj2 (GetPage_records_carry_all_tags rowid_order rowid_order
                  (fun rows => Permutation_refl rows) (mkQueryArgs "" 0 0)
                  two_tags) Hf).
Defined.

Lemma GetPage_lists_no_repository_twice_witness :
  NoDup
    (listed_names
       (GetPage rowid_order rowid_order (mkQueryArgs "app" 0 0)
          three_repositories)).
Proof.
  exact (GetPage_lists_no_repository_twice rowid_order rowid_order
           (fun rows => Permutation_refl rows) (mkQueryArgs "app" 0 0)
           three_repositories three_repositories_unique).
Defined.

Lemma pushed_tag_is_listed_witness :
  exists rec,
    In rec (fst (fst (GetPage rowid_order rowid_order (mkQueryArgs "" 0 10)
                        (snd (add (push_of "gamma/db" "v2") three_repositories)))))
    /\ Repository_Repository rec = "gamma/db"
    /\ In (mkTag "gamma/db" "v2" "sha256:0a1b2c"
             "http://registry.local/v2/gamma/db/manifests/v2"
             "unset" "" "" 1003)
         (Repository_Tags rec).
Proof.
  assert (Hs : Skip (mkQueryArgs "" 0 10) <= 0) by (cbn; lia).
  assert (Hl : Z.of_nat (List.length (repositories (db three_repositories))) + 1
               <= Limit (mkQueryArgs "" 0 10)) by (vm_compute; discriminate).
  exact (pushed_tag_is_listed rowid_order rowid_order
           (fun rows => Permutation_refl rows) (fun rows => Permutation_refl rows)
           (push_of "gamma/db" "v2") (mkQueryArgs "" 0 10) three_repositories
           three_repositories_fault_free eq_refl Hs Hl).
Defined.

(** ** The status handler's answers *)

(** X15.  The status codes of the PATCH handler: 400 for a body that does
    not decode, without any database call; 500 when the engine fails, with
    the tables unchanged; 204 in every other case, the UPDATE being run with
    the fields of the body.  No request is answered with 404. *)
Theorem tagStatusHandler_answers
    (body : option (list (string * string))) (w : World) :
  let status := fst (tagStatusHandler_SetTagStatus body w) in
  let w' := snd (tagStatusHandler_SetTagStatus body w) in
  status <> 404
  /\ match body with
     | None => status = 400 /\ w' = w
     | Some req =>
         match fault w (calls w) with
         | Some _ => status = 500 /\ db w' = db w
         | None =>
             status = 204
             /\ db w' =
                run_stmt
                  (UpdateTagStatus (req_get req "status")
                     (req_get req "description") (req_get req "target_url")
                     (req_get req "repository") (req_get req "tag"))
                  (db w)
         end
     end.
Proof.
  cbv zeta. split; [apply tagStatusHandler_never_404|].
  destruct body as [req|]; [|split; reflexivity].
  cbn [tagStatusHandler_SetTagStatus]. unfold bind. rewrite SetTagStatus_eq.
  destruct (fault w (calls w)); cbn; split; reflexivity.
Qed.

(** ** Normalising the query arguments *)

(** X16.  [prepare] yields a non-negative offset and a limit of at least 1,
    keeps the keyword, leaves arguments that are already in range as they
    are, and applying it again changes nothing. *)
Theorem prepare_normalises (args : QueryArgs) :
  0 <= Skip (prepare args)
  /\ 1 <= Limit (prepare args)
  /\ Keyword (prepare args) = Keyword args
  /\ (if (0 <=? Skip args) && (1 <=? Limit args)
      then prepare args = args else prepare args <> args)
  /\ prepare (prepare args) = prepare args.
Proof.
  destruct (prepare_fields args) as (Hk & Hs & Hl).
  split; [rewrite Hs; destruct (Skip args <? 0) eqn:E; order_tests; lia|].
  split; [rewrite Hl; unfold defaultLimit;
          destruct (Limit args <? 1) eqn:E; order_tests; lia|].
  split; [exact Hk|]. split; [|apply prepare_idempotent].
  destruct (0 <=? Skip args) eqn:E1; destruct (1 <=? Limit args) eqn:E2;
    cbn [andb]; order_tests.
  - apply prepare_valid; assumption.
  - intros H. rewrite H in Hl. revert Hl. unfold defaultLimit.
    destruct (Limit args <? 1) eqn:E; order_tests; lia.
  - intros H. rewrite H in Hs. revert Hs.
    destruct (Skip args <? 0) eqn:E; order_tests; lia.
  - intros H. rewrite H in Hs. revert Hs.
    destruct (Skip args <? 0) eqn:E; order_tests; lia.
Qed.

(** ** The tag name, again *)

Lemma nth_last {A : Type} (l : list A) (d : A) :
  nth (List.length l - 1) l d = last l d.
Proof.
  induction l as [|a l IH]; [reflexivity|].
  destruct l as [|b l]; [reflexivity|].
  cbn [List.length Nat.sub] in *. rewrite Nat.sub_0_r in *.
  cbn [nth last]. exact IH.
Qed.

Lemma Split_last (s : string) (sep : ascii) :
  has_byte sep (last (Split s sep) "") = false
  /\ (if has_byte sep s
      then (2 <= List.length (Split s sep))%nat
           /\ exists pre, s = (pre ++ String sep (last (Split s sep) ""))%string
      else Split s sep = [s]).
Proof.
  induction s as [|c s [IHl IHs]]; [split; reflexivity|].
  cbn [Split has_byte].
  pose proof (Split_nonempty s sep) as Hne.
  destruct (Ascii.eqb c sep) eqn:Hc; cbn [orb].
  - apply Ascii.eqb_eq in Hc. subst c.
    destruct (Split s sep) as [|p ps] eqn:Hp; [contradiction|].
    split; [exact IHl|]. split; [cbn; lia|].
    destruct (has_byte sep s).
    + destruct IHs as [_ [pre Hpre]]. exists (String sep pre).
      cbn [append]. f_equal. exact Hpre.
    + inversion IHs; subst. exists "". reflexivity.
  - destruct (Split s sep) as [|p ps] eqn:Hp; [contradiction|].
    destruct (has_byte sep s) eqn:Hs.
    + destruct IHs as [Hlen [pre Hpre]].
      destruct ps as [|q qs]; [cbn in Hlen; lia|].
      split; [exact IHl|]. split; [cbn; lia|].
      exists (String c pre). cbn [append]. f_equal. exact Hpre.
    + inversion IHs; subst. cbn [last has_byte]. rewrite Hc, Hs.
      split; reflexivity.
Qed.

(** X17.  The derived tag name never contains a slash; a URL with a slash
    is some prefix, a slash and the derived name, and a URL without one
    gives the empty name. *)
Theorem parseTag_splits_at_last_slash (url : string) :
  has_byte "/" (parseTag url) = false
  /\ (if has_byte "/" url
      then exists pre, url = (pre ++ "/" ++ parseTag url)%string
      else parseTag url = "").
Proof.
  unfold parseTag. destruct (Split_last url "/") as [Hlast Hcase].
  rewrite nth_last.
  destruct (has_byte "/" url).
  - destruct Hcase as [Hlen Hpre].
    replace (1 <? List.length (Split url "/"))%nat with true
      by (symmetry; apply Nat.ltb_lt; lia).
    split; [exact Hlast|exact Hpre].
  - rewrite Hcase. split; reflexivity.
Qed.

(** ** Batches *)

Lemma add_error_is_storage (event : Event) (w w' : World) (e : error) :
  add event w = (Some e, w') -> exists code, e = StorageError code.
Proof.
  unfold add, bind at 1. rewrite Exec_eq.
  destruct (fault w (calls w)) as [code|].
  - intros H. inversion H. eauto.
  - unfold bind, time_Now. rewrite Exec_eq. cbn [calls fault after_call].
    destruct (fault w (S (calls w))) as [code|]; [|discriminate].
    intros H. inversion H. eauto.
Qed.

Lemma delete_error_is_storage (event : Event) (w w' : World) (e : error) :
  delete event w = (Some e, w') -> exists code, e = StorageError code.
Proof.
  unfold delete, bind. rewrite Exec_eq.
  destruct (fault w (calls w)) as [code|].
  - intros H. inversion H. eauto.
  - rewrite Exec_eq. cbn [calls fault after_call].
    destruct (fault w (S (calls w))) as [code|]; [|discriminate].
    intros H. inversion H. eauto.
Qed.

Section Batches.

Variable ManifestMediaType : string.

(** X18.  Where an error of the sink comes from: when a batch returns an
    error, the batch splits into events that were processed without error,
    one manifest push or delete whose handling returned exactly that error,
    and the events never looked at; the error is one reported by the
    storage engine. *)
Theorem Write_error_origin (events : list Event) (w w2 : World) (e : error) :
  Write ManifestMediaType events w = (Some e, w2) ->
  exists pre event post w1,
    events = pre ++ event :: post
    /\ Write ManifestMediaType pre w = (None, w1)
    /\ Write_event ManifestMediaType event w1 = (Some e, w2)
    /\ Target_MediaType (Target event) = ManifestMediaType
    /\ (Action event = EventActionPush \/ Action event = EventActionDelete)
    /\ exists code, e = StorageError code.
Proof.
  intros H.
  destruct (Write_error_inv ManifestMediaType events w w2 e H)
    as (pre & event & post & w1 & Heq & Hpre & Hev).
  exists pre, event, post, w1.
  split; [exact Heq|]. split; [exact Hpre|]. split; [exact Hev|].
  unfold Write_event in Hev.
  destruct (String.eqb (Target_MediaType (Target event)) ManifestMediaType)
    eqn:Hm; [|discriminate].
  apply String.eqb_eq in Hm. split; [exact Hm|].
  destruct (EventAction_eqb (Action event) EventActionDelete) eqn:Hd.
  - apply EventAction_eqb_eq in Hd.
    split; [right; exact Hd|eapply delete_error_is_storage; exact Hev].
  - destruct (EventAction_eqb (Action event) EventActionPush) eqn:Hp;
      [|discriminate].
    apply EventAction_eqb_eq in Hp.
    split; [left; exact Hp|eapply add_error_is_storage; exact Hev].
Qed.

(** X19.  Where a batch is cut does not matter: processing [first ++ rest]
    is processing [first] and, when that returned no error, [rest] in the
    world it left; when [first] fails, [rest] is not looked at. *)
Theorem Write_in_two_batches (first rest : list Event) (w : World) :
  Write ManifestMediaType (first ++ rest) w =
  match fst (Write ManifestMediaType first w) with
  | None => Write ManifestMediaType rest (snd (Write ManifestMediaType first w))
  | Some _ => Write ManifestMediaType first w
  end.
Proof.
  rewrite Write_app.
  destruct (Write ManifestMediaType first w) as [[e|] w1]; reflexivity.
Qed.

End Batches.

Lemma Write_error_origin_witness :
  exists pre event post w1,
    [sample_push; sample_delete; sample_push] = pre ++ event :: post
    /\ Write sample_media_type pre third_call_fails = (None, w1)
    /\ Write_event sample_media_type event w1
       = (Some (StorageError 5),
          snd (Write sample_media_type [sample_push; sample_delete; sample_push]
                 third_call_fails))
    /\ Target_MediaType (Target event) = sample_media_type
    /\ (Action event = EventActionPush \/ Action event = EventActionDelete)
    /\ exists code, StorageError 5 = StorageError code.
Proof.
  exact (Write_error_origin sample_media_type
           [sample_push; sample_delete; sample_push] third_call_fails
           (snd (Write sample_media_type [sample_push; sample_delete; sample_push]
                   third_call_fails))
           (StorageError 5) eq_refl).
Defined.

(** ** Listed repositories and their tags *)

Section Tagged.

Variable scan_repositories : list repositories_row -> list repositories_row.
Variable scan_tags : list tags_row -> list tags_row.

Hypothesis scan_repositories_perm :
  forall rows, Permutation (scan_repositories rows) rows.
Hypothesis scan_tags_perm :
  forall rows, Permutation (scan_tags rows) rows.

Lemma select_repositories_In (args : QueryArgs) (d : DB) (name : string) :
  In name (select_repositories scan_repositories args d) ->
  In name (repository_names d).
Proof.
  unfold select_repositories. intros H. apply In_window in H.
  assert (Hs : In name (map repositories_repository
                          (scan_repositories (repositories d)))).
  { destruct (0 <? String.length (Keyword args))%nat; [|exact H].
    apply where_like_sub in H. exact H. }
  eapply Permutation_in; [|exact Hs].
  apply Permutation_map, scan_repositories_perm.
Qed.

(** X20.  While every repository row is referenced by a tag row, as it is
    after events processed without error, a page read on an engine that
    carries the calls out shows no repository with an empty tag list. *)
Theorem listed_repositories_have_tags (args : QueryArgs) (w : World) :
  fault_free w ->
  (forall r, In r (repository_names (db w)) -> In r (tagged_repositories (db w))) ->
  Forall (fun rec => Repository_Tags rec <> [])
    (fst (fst (GetPage scan_repositories scan_tags args w))).
Proof.
  intros Hf Hinv.
  rewrite (GetPage_complete scan_repositories scan_tags args w Hf).
  cbn [fst]. apply Forall_forall. intros rec Hin.
  apply in_map_iff in Hin. destruct Hin as (name & <- & Hname).
  apply select_repositories_In in Hname.
  apply Hinv in Hname. apply in_map_iff in Hname.
  destruct Hname as (row & Hrow & Hin).
  unfold repository_record. cbn [Repository_Tags]. intros Hnil.
  assert (Ht : In (scan_Tag row) (select_tags scan_tags name (db w))).
  { apply (In_select_tags scan_tags scan_tags_perm). exists row. auto. }
  rewrite Hnil in Ht. exact Ht.
Qed.

End Tagged.

Lemma listed_repositories_have_tags_witness :
  Forall (fun rec => Repository_Tags rec <> [])
    (fst (fst (GetPage rowid_order rowid_order (mkQueryArgs "" 0 0) two_tags))).
Proof.
  assert (H : forall r, In r (repository_names (db two_tags)) ->
                        In r (tagged_repositories (db two_tags))).
  { intros r Hr. vm_compute in Hr. destruct Hr as [<-|[]]. left. reflexivity. }
  assert (Hf : fault_free two_tags) by (intros n; reflexivity).
  exact (listed_repositories_have_tags rowid_order rowid_order
           (fun rows => Permutation_refl rows) (fun rows => Permutation_refl rows)
           (mkQueryArgs "" 0 0) two_tags Hf H).
Defined.

(** What a failing cursor does to a page of the catalog with the two tags
    of "library/app", whose listing makes the calls number 4 to 14.  When
    the first step of the tag cursor fails the repository is shown without
    tags; when the second fails it is shown with the first tag; when the
    first scan fails it is shown with the second tag; when the last scan
    fails it is not shown; when the first step of the repository cursor
    fails the page is empty.  No error is returned. *)
Example GetPage_on_a_failing_cursor :
  let page n :=
    fst (GetPage rowid_order rowid_order (mkQueryArgs "" 0 0)
           (fails_at n two_tags)) in
  let tags_of result :=
    map (fun rec => (Repository_Repository rec,
                     map Tag_Tag (Repository_Tags rec))) (fst result) in
  calls two_tags = 4%nat
  /\ calls (snd (GetPage rowid_order rowid_order (mkQueryArgs "" 0 0) two_tags))
     = 15%nat
  /\ tags_of (page 9%nat) = [("library/app", [])]
  /\ tags_of (page 11%nat) = [("library/app", ["v1.2"])]
  /\ tags_of (page 10%nat) = [("library/app", ["v1.3"])]
  /\ tags_of (page 12%nat) = []
  /\ tags_of (page 6%nat) = []
  /\ Forall (fun n => snd (page n) = None) [6; 9; 10; 11; 12]%nat.
Proof. cbv zeta. repeat split; repeat constructor. Qed.

(** ** From a patch to the listing *)

Section Patched.

Variable scan_repositories : list repositories_row -> list repositories_row.
Variable scan_tags : list tags_row -> list tags_row.

Hypothesis scan_repositories_perm :
  forall rows, Permutation (scan_repositories rows) rows.
Hypothesis scan_tags_perm :
  forall rows, Permutation (scan_tags rows) rows.

(** A listing without keyword, from the first row and with room for all,
    holds a record of every repository row. *)
Lemma GetPage_lists_all (args : QueryArgs) (w : World) (name : string) :
  fault_free w ->
  Keyword args = "" ->
  Skip args <= 0 ->
  Z.of_nat (List.length (repositories (db w))) <= Limit (prepare args) ->
  In name (repository_names (db w)) ->
  In (mkRepository name (select_tags scan_tags name (db w)))
    (fst (fst (GetPage scan_repositories scan_tags args w))).
Proof.
  intros Hf Hk Hs Hl Hin.
  rewrite (GetPage_complete scan_repositories scan_tags args w Hf). cbn [fst].
  apply (in_map (repository_record scan_tags (db w))).
  unfold select_repositories.
  destruct (prepare_fields args) as (Hk' & Hs' & _).
  rewrite Hk', Hk, Hs'. cbn [String.length Nat.ltb Nat.leb].
  replace (Z.to_nat (if Skip args <? 0 then 0 else Skip args)) with 0%nat
    by (destruct (Skip args <? 0); lia).
  cbn [skipn]. rewrite firstn_all2.
  - eapply Permutation_in; [|exact Hin].
    apply Permutation_sym, Permutation_map, scan_repositories_perm.
  - rewrite length_map, (Permutation_length (scan_repositories_perm _)). lia.
Qed.

(** X21.  What a patch stores is what the listing shows: after a successful
    patch of an existing tag row, a listing without keyword and with room
    for every repository shows that tag with the patched status,
    description and target reference and with the digest, URL and
    updated-at it had. *)
Theorem patched_status_is_listed
    (row : tags_row) (status description target_url : string)
    (args : QueryArgs) (w : World) :
  fault_free w ->
  In row (tags (db w)) ->
  In (tags_repository row) (repository_names (db w)) ->
  Keyword args = "" ->
  Skip args <= 0 ->
  Z.of_nat (List.length (repositories (db w))) <= Limit (prepare args) ->
  let w1 := snd (SetTagStatus (tags_repository row) (tags_tag row)
                   status description target_url w) in
  exists rec,
    In rec (fst (fst (GetPage scan_repositories scan_tags args w1)))
    /\ Repository_Repository rec = tags_repository row
    /\ In (mkTag (tags_repository row) (tags_tag row) (tags_digest row)
             (tags_url row) status description target_url (tags_updated_at row))
         (Repository_Tags rec).
Proof.
  intros Hf Hrow Hrepo Hk Hs Hl. cbv zeta.
  rewrite SetTagStatus_eq, (Hf (calls w)). cbn [snd].
  set (d1 := run_stmt _ (db w)).
  assert (Hf1 : fault_free (after_call d1 w)) by (apply fault_free_after_call, Hf).
  exists (mkRepository (tags_repository row)
            (select_tags scan_tags (tags_repository row) d1)).
  split; [|split; [reflexivity|]].
  - apply (GetPage_lists_all args (after_call d1 w) (tags_repository row) Hf1 Hk Hs).
    + exact Hl.
    + exact Hrepo.
  - cbn [Repository_Tags].
    apply (In_select_tags scan_tags scan_tags_perm).
    exists (set_status status description target_url row).
    split; [|split; reflexivity].
    subst d1. cbn [run_stmt tags].
    apply in_map_iff. exists row. split; [|exact Hrow].
    unfold tag_key. rewrite !String.eqb_refl. reflexivity.
Qed.

End Patched.

Lemma patched_status_is_listed_witness :
  exists rec,
    In rec (fst (fst (GetPage rowid_order rowid_order (mkQueryArgs "" 0 0)
                        (snd (SetTagStatus "library/app" "v1.3" "passed"
                                "reviewed" "http://ci.local/42" two_tags)))))
    /\ Repository_Repository rec = "library/app"
    /\ In (mkTag "library/app" "v1.3" "sha256:0a1b2c"
             "http://registry.local/v2/library/app/manifests/v1.3"
             "passed" "reviewed" "http://ci.local/42" 1001)
         (Repository_Tags rec).
Proof.
  assert (Hf : fault_free two_tags) by (intros n; reflexivity).
  assert (Hrow : In (mk_tags_row 2 "library/app" "sha256:0a1b2c"
                       "http://registry.local/v2/library/app/manifests/v1.3"
                       "v1.3" "unset" "" "" 1001) (tags (db two_tags)))
    by (right; left; reflexivity).
  assert (Hrepo : In "library/app" (repository_names (db two_tags)))
    by (left; reflexivity).
  assert (Hs : Skip (mkQueryArgs "" 0 0) <= 0) by (cbn; lia).
  assert (Hl : Z.of_nat (List.length (repositories (db two_tags)))
               <= Limit (prepare (mkQueryArgs "" 0 0)))
    by (vm_compute; discriminate).
  exact (patched_status_is_listed rowid_order rowid_order
           (fun rows => Permutation_refl rows) (fun rows => Permutation_refl rows)
           (mk_tags_row 2 "library/app" "sha256:0a1b2c"
              "http://registry.local/v2/library/app/manifests/v1.3"
              "v1.3" "unset" "" "" 1001)
           "passed" "reviewed" "http://ci.local/42"
           (mkQueryArgs "" 0 0) two_tags Hf Hrow Hrepo eq_refl Hs Hl).
Defined.
